(** * glaze: routing tree and handler-chain dispatch

    A shallow embedding of the router of [github.com/nrhox/glaze]
    (tree.go, route.go, the Context file and glaze.go) together with the
    properties of its specification.

    Conventions of the embedding.
    - A Go [string] is a sequence of bytes: Rocq's [string].
    - A Go slice or map that the code compares with [nil] is an [option]:
      [None] is [nil].  Slices that are only ranged over are lists.
    - A [map[string]T] is a [gmap string T].
    - [panic(msg)] is the outcome [Panic msg]; the message is the one the
      source builds.
    - [*node] pointers form a tree (every node is created by [addRoute] and
      stored in exactly one parent), so the tree is a value and an update
      below a node rebuilds the path down to it. *)

From Stdlib Require Import ZArith Ascii String List Lia Bool Sorted Permutation.
From stdpp Require Import base option list gmap strings.

#[local] Set Warnings "-register-all".
#[local] Open Scope string_scope.
#[local] Open Scope Z_scope.
#[local] Arguments String.append : simpl nomatch.

(** ** Outcomes of Go calls *)

(** A call returns normally, panics with a message, or (for the two
    functions of the model that are defined with fuel) exhausts its fuel. *)
Inductive result (A : Type) : Type :=
| Ok (a : A)
| Panic (msg : string)
| OutOfFuel.
Arguments Ok {A} a.
Arguments Panic {A} msg.
Arguments OutOfFuel {A}.

Definition bind {A B : Type} (r : result A) (k : A -> result B) : result B :=
  match r with
  | Ok a => k a
  | Panic msg => Panic msg
  | OutOfFuel => OutOfFuel
  end.

Notation "'call' x <- r ; k" := (bind r (fun x => k))
  (at level 10, x name, r at level 100, k at level 200).


(** The two kinds of registration failure, told apart by the message the
    source panics with. *)
Definition conflict_error {A : Type} (r : result A) : Prop :=
  match r with Panic msg => String.prefix "conflict: " msg = true | _ => False end.

Definition duplicate_route_error {A : Type} (r : result A) : Prop :=
  match r with
  | Panic msg => String.prefix "duplicate route detected: " msg = true
  | _ => False
  end.

(** ** The part of Go's [strings] package that tree.go uses *)

Module Strings.

Definition slash : ascii := "/"%char.

(** [strings.HasPrefix(s, prefix)] *)
Definition HasPrefix (s prefix : string) : bool := String.prefix prefix s.

Fixpoint trimLeftByte (s : string) (c : ascii) : string :=
  match s with
  | String a r => if Ascii.eqb a c then trimLeftByte r c else s
  | EmptyString => EmptyString
  end.

Fixpoint trimRightByte (s : string) (c : ascii) : string :=
  match s with
  | EmptyString => EmptyString
  | String a r =>
      match trimRightByte r c with
      | EmptyString => if Ascii.eqb a c then EmptyString else String a EmptyString
      | r' => String a r'
      end
  end.

(** [strings.Trim(s, cutset)] for a cutset of one ASCII byte: all leading
    and trailing occurrences of the byte are removed. *)
Definition Trim (s : string) (c : ascii) : string :=
  trimLeftByte (trimRightByte s c) c.

(** [strings.Split(s, sep)] for a separator of one byte: the pieces
    between the separators, empty pieces included; one more piece than
    there are separators. *)
Fixpoint Split (s : string) (sep : ascii) : list string :=
  match s with
  | EmptyString => [EmptyString]
  | String a r =>
      if Ascii.eqb a sep then EmptyString :: Split r sep
      else match Split r sep with
           | x :: xs => String a x :: xs
           | [] => [String a EmptyString]
           end
  end.

End Strings.

(** ** tree.go: splitClean *)

Definition nonempty (s : string) : bool :=
  match s with EmptyString => false | String _ _ => true end.

(** [out := raw[:0]] followed by the appends writes the kept pieces over the
    front of [raw]; the write position never passes the read position, so
    the result is the list of the non-empty pieces, in order.  The result is
    only ranged over by its callers: [nil] and the empty slice are both the
    empty list. *)
Definition splitClean (p : string) : list string :=
  let p := Strings.Trim p Strings.slash in
  if decide (p = "") then []
  else
    let raw := Strings.Split p Strings.slash in
    List.filter nonempty raw.

(** ** The Context file: handlers, Context, Next and Abort *)

(** The response sink is an [http.ResponseWriter] of the transport; the
    model keeps the calls made on it, oldest first. *)
Inductive sinkCall : Type :=
| WriteHeader (code : Z)
| WriteString (s : string).

(** What a handler body can read of its Context to decide what to do. *)
Record View : Type := mkView {
  seenWriter : list sinkCall;
  seenParams : option (gmap string string);
  seenKeys : option (gmap string string);
  seenStopped : bool
}.

(** [type HandlerFunc func(c *Context)].  A handler is code of the user of the
    library; the model gives its body as the sequence of calls it makes on
    the Context it receives, with branches on what it reads there:
    [c.Next()], [c.Abort()], [c.String(code, msg)], [c.Set(key, value)],
    an [if], and [return]. *)
Inductive HandlerFunc : Type :=
| Return
| CallNext (rest : HandlerFunc)
| CallAbort (rest : HandlerFunc)
| CallString (code : Z) (msg : string) (rest : HandlerFunc)
| CallSet (key value : string) (rest : HandlerFunc)
| IfElse (cond : View -> bool) (thenBody elseBody : HandlerFunc).

(** [type HandlersChain []HandlerFunc]; [None] is the nil slice. *)
Definition HandlersChain : Type := option (list HandlerFunc).

Definition elems {A : Type} (s : option (list A)) : list A := default [] s.

(** The fields of [Context] that [Next], [Abort], [String] and [Set] touch.
    [invoked] is not a field of the source: it records, oldest first, the
    position in [handlers] of every call [c.handlers[c.index](c)] that
    [Next] makes, so that "handler i was invoked" can be stated. *)
Record Context : Type := mkContext {
  Writer : list sinkCall;
  Params : option (gmap string string);
  handlers : HandlersChain;
  index : Z;
  Keys : option (gmap string string);
  stopped : bool;
  invoked : list Z
}.

Definition view (c : Context) : View :=
  mkView (Writer c) (Params c) (Keys c) (stopped c).

(** Go's [int] on a 64-bit platform: [c.index++] wraps around. *)
Definition wrap_int (z : Z) : Z := (z + 2 ^ 63) mod 2 ^ 64 - 2 ^ 63.

Definition set_index (c : Context) (i : Z) : Context :=
  mkContext (Writer c) (Params c) (handlers c) i (Keys c) (stopped c) (invoked c).

Definition record_invocation (c : Context) : Context :=
  mkContext (Writer c) (Params c) (handlers c) (index c) (Keys c) (stopped c)
            (invoked c ++ [index c]).

(** [func (c *Context) Abort()] *)
Definition Abort (c : Context) : Context :=
  mkContext (Writer c) (Params c) (handlers c) (index c) (Keys c) true (invoked c).

(** [func (c *Context) String(code int, msg string)] *)
Definition String_ (c : Context) (code : Z) (msg : string) : Context :=
  mkContext (Writer c ++ [WriteHeader code; WriteString msg]) (Params c)
            (handlers c) (index c) (Keys c) (stopped c) (invoked c).

(** [func (c *Context) Set(key, value any)]: the store is allocated on the
    first call. *)
Definition Set_ (c : Context) (key value : string) : Context :=
  mkContext (Writer c) (Params c) (handlers c) (index c)
            (Some (<[key := value]> (default ∅ (Keys c)))) (stopped c) (invoked c).

(** [c.handlers[c.index]]: Go panics when the index is out of range. *)
Definition handler_at (hs : HandlersChain) (i : Z) : option HandlerFunc :=
  if i <? 0 then None else elems hs !! Z.to_nat i.

(** The body of a handler, run on a Context; [next] is what [c.Next()]
    does. *)
Fixpoint run (next : Context -> result Context) (h : HandlerFunc) (c : Context)
  : result Context :=
  match h with
  | Return => Ok c
  | CallNext rest => call c' <- next c; run next rest c'
  | CallAbort rest => run next rest (Abort c)
  | CallString code msg rest => run next rest (String_ c code msg)
  | CallSet key value rest => run next rest (Set_ c key value)
  | IfElse cond a b => if cond (view c) then run next a c else run next b c
  end.

(** [func (c *Context) Next()].  The recursion of the source is on the
    calls of [Next] (its own at the end, and those the handlers make), not
    on a datum, so the model takes fuel: the number of nested calls of
    [Next] it may make. *)
Fixpoint Next (fuel : nat) (c : Context) : result Context :=
  match fuel with
  | O => OutOfFuel
  | S fuel' =>
      if stopped c then Ok c
      else
        let c := set_index c (wrap_int (index c + 1)) in
        if index c <? Z.of_nat (length (elems (handlers c))) then
          match handler_at (handlers c) (index c) with
          | None => Panic "runtime error: index out of range"
          | Some h =>
              call c' <- run (Next fuel') h (record_invocation c);
              Next fuel' c'
          end
        else Ok c
  end.

(** The statements of a handler body, without the calls of [Next]: what
    the body does to the Context by itself. *)
Fixpoint own_effect (h : HandlerFunc) (c : Context) : Context :=
  match h with
  | Return => c
  | CallNext rest => own_effect rest c
  | CallAbort rest => own_effect rest (Abort c)
  | CallString code msg rest => own_effect rest (String_ c code msg)
  | CallSet key value rest => own_effect rest (Set_ c key value)
  | IfElse cond a b => if cond (view c) then own_effect a c else own_effect b c
  end.

(** No path through the body calls [Abort]. *)
Fixpoint never_aborts (h : HandlerFunc) : bool :=
  match h with
  | Return => true
  | CallNext rest => never_aborts rest
  | CallAbort _ => false
  | CallString _ _ rest => never_aborts rest
  | CallSet _ _ rest => never_aborts rest
  | IfElse _ a b => never_aborts a && never_aborts b
  end.

(** Every path through the body calls [Abort], and calls it before any
    call of [Next]. *)
Fixpoint aborts_first (h : HandlerFunc) : bool :=
  match h with
  | Return => false
  | CallNext _ => false
  | CallAbort _ => true
  | CallString _ _ rest => aborts_first rest
  | CallSet _ _ rest => aborts_first rest
  | IfElse _ a b => aborts_first a && aborts_first b
  end.

(** The largest number of calls of [Next] on a path through the body. *)
Fixpoint calls_of_Next (h : HandlerFunc) : nat :=
  match h with
  | Return => O
  | CallNext rest => S (calls_of_Next rest)
  | CallAbort rest => calls_of_Next rest
  | CallString _ _ rest => calls_of_Next rest
  | CallSet _ _ rest => calls_of_Next rest
  | IfElse _ a b => Nat.max (calls_of_Next a) (calls_of_Next b)
  end.

(** ** tree.go: the routing tree *)

(** [type node struct].  [children] holds the static children by segment
    text, [paramNode] the one child for parameter segments; [node_handlers]
    is the field [handlers], a name [Context] has too. *)
Inductive node : Type := mkNode {
  segment : string;
  param : bool;
  node_handlers : HandlersChain;
  children : gmap string node;
  paramNode : option node
}.

Definition set_handlers (n : node) (hs : HandlersChain) : node :=
  mkNode (segment n) (param n) hs (children n) (paramNode n).

Definition set_child (n : node) (part : string) (child : node) : node :=
  mkNode (segment n) (param n) (node_handlers n) (<[part := child]> (children n))
         (paramNode n).

Definition set_paramNode (n : node) (child : node) : node :=
  mkNode (segment n) (param n) (node_handlers n) (children n) (Some child).

(** [&node{children: make(map[string]*node)}] *)
Definition rootNode : node := mkNode "" false None ∅ None.

(** [part[1:]]; Go panics on the empty string. *)
Definition from_1 (part : string) : result string :=
  match part with
  | EmptyString => Panic "runtime error: slice bounds out of range"
  | String _ r => Ok r
  end.

(** [type RouteInfo struct] *)
Record RouteInfo : Type := mkRouteInfo { Method : string; Path : string }.

(** The loop of [addRoute] over [parts], from the node [current], and the
    statements after the loop.  The result is [current] as it is once the
    route is in: the node the loop moves into is updated in place in the
    source, which here rebuilds [current] around the updated child. *)
Fixpoint addParts (method path : string) (parts : list string)
    (handlers : HandlersChain) (current : node) : result node :=
  match parts with
  | [] =>
      match node_handlers current with
      | Some _ => Panic ("duplicate route detected: " +:+ method +:+ " " +:+ path)
      | None => Ok (set_handlers current handlers)
      end
  | part :: parts' =>
      if Strings.HasPrefix part ":" then
        match children current !! part with
        | Some _ =>
            Panic ("conflict: param '" +:+ part +:+ "' collides with static route in "
                   +:+ method +:+ " " +:+ path)
        | None =>
            call next <-
              match paramNode current with
              | None => call name <- from_1 part; Ok (mkNode name true None ∅ None)
              | Some pn => Ok pn
              end;
            call next' <- addParts method path parts' handlers next;
            Ok (set_paramNode current next')
        end
      else
        match paramNode current with
        | Some _ =>
            Panic ("conflict: static '" +:+ part +:+ "' collides with param in "
                   +:+ method +:+ " " +:+ path)
        | None =>
            let next :=
              match children current !! part with
              | None => mkNode part false None ∅ None
              | Some next => next
              end in
            call next' <- addParts method path parts' handlers next;
            Ok (set_child current part next')
        end
  end.

(** The fields of [Route] and [Engine] that registration and resolution
    use.  [Engine] embeds a [Route]: its own prefix and middleware. *)
Record Route : Type := mkRoute {
  routePath : string;
  Handler : HandlersChain;
  root : bool
}.

Record Engine : Type := mkEngine {
  engineRoute : Route;
  routeList : list RouteInfo;
  trees : gmap string node
}.

(** [func New(cfg ...ConfigsFunc) *Engine], without options. *)
Definition New : Engine := mkEngine (mkRoute "" None false) [] ∅.

(** [func (r *Engine) addRoute(method, path string, handlers ...HandlerFunc)] *)
Definition addRoute (r : Engine) (method path : string) (handlers : HandlersChain)
  : result Engine :=
  let current := default rootNode (trees r !! method) in
  let parts := splitClean path in
  call current' <- addParts method path parts handlers current;
  Ok (mkEngine (engineRoute r)
               (routeList r ++ [mkRouteInfo method path])
               (<[method := current']> (trees r))).

(** The loop of [findRoute]; [None] is the early [return nil, nil]. *)
Fixpoint findParts (parts : list string) (current : node)
    (params : option (gmap string string))
  : option (node * option (gmap string string)) :=
  match parts with
  | [] => Some (current, params)
  | part :: parts' =>
      match children current !! part with
      | Some next => findParts parts' next params
      | None =>
          match paramNode current with
          | Some pn =>
              findParts parts' pn (Some (<[segment pn := part]> (default ∅ params)))
          | None => None
          end
      end
  end.

(** [func (r *Engine) findRoute(method, path string)
      ([]HandlerFunc, map[string]string)] *)
Definition findRoute (r : Engine) (method path : string)
  : HandlersChain * option (gmap string string) :=
  match trees r !! method with
  | None => (None, None)
  | Some root =>
      match findParts (splitClean path) root None with
      | None => (None, None)
      | Some (current, params) => (node_handlers current, params)
      end
  end.

(** ** The part of Go's [path] package that route.go uses *)

Module Path.

(** [lazybuf] of package [path] is a write cursor [w] over a byte buffer.
    The model keeps the bytes written so far, the most recent first; [w]
    is the length of that list, [out.w--] drops its head, and
    [out.index(out.w)] right after is the byte just dropped. *)

(** [out.w--; for out.w > dotdot && out.index(out.w) != '/' { out.w-- }] *)
Fixpoint backtrack (out : list ascii) (dotdot : nat) : list ascii :=
  match out with
  | [] => []
  | c :: out' =>
      if Nat.ltb dotdot (length out') && negb (Ascii.eqb c "/")
      then backtrack out' dotdot
      else out'
  end.

(** [for ; r < n && path[r] != '/'; r++ { out.append(path[r]) }] *)
Fixpoint copy_element (rest : string) (out : list ascii) : list ascii * string :=
  match rest with
  | EmptyString => (out, EmptyString)
  | String c rest' =>
      if Ascii.eqb c "/" then (out, rest) else copy_element rest' (c :: out)
  end.

(** [r+k == n || path[r+k] == '/'], on the input from position [r+k]. *)
Definition at_end_or_slash (rest : string) : bool :=
  match rest with
  | EmptyString => true
  | String c _ => Ascii.eqb c "/"
  end.

Definition tail (s : string) : string :=
  match s with EmptyString => EmptyString | String _ r => r end.

(** The loop [for r < n] of [Clean]; [rest] is [path[r:]].  Every turn
    consumes at least one byte of [rest]; the fuel bounds the turns. *)
Fixpoint clean_loop (fuel : nat) (rooted : bool) (rest : string)
    (out : list ascii) (dotdot : nat) : result (list ascii) :=
  match fuel with
  | O => OutOfFuel
  | S fuel' =>
      match rest with
      | EmptyString => Ok out
      | String c rest1 =>
          if Ascii.eqb c "/" then
            clean_loop fuel' rooted rest1 out dotdot
          else if Ascii.eqb c "." && at_end_or_slash rest1 then
            clean_loop fuel' rooted rest1 out dotdot
          else if Ascii.eqb c "." && String.prefix "." rest1
                  && at_end_or_slash (tail rest1) then
            let rest2 := tail rest1 in
            if Nat.ltb dotdot (length out) then
              clean_loop fuel' rooted rest2 (backtrack out dotdot) dotdot
            else if negb rooted then
              let out1 := if Nat.ltb 0 (length out) then "/"%char :: out else out in
              let out2 := "."%char :: "."%char :: out1 in
              clean_loop fuel' rooted rest2 out2 (length out2)
            else clean_loop fuel' rooted rest2 out dotdot
          else
            let out1 :=
              if rooted && negb (Nat.eqb (length out) 1)
                 || negb rooted && negb (Nat.eqb (length out) 0)
              then "/"%char :: out else out in
            let '(out2, rest') := copy_element rest out1 in
            clean_loop fuel' rooted rest' out2 dotdot
      end
  end.

(** [func Clean(path string) string] *)
Definition Clean (path : string) : result string :=
  match path with
  | EmptyString => Ok "."
  | String c rest1 =>
      let rooted := Ascii.eqb c "/" in
      call out <-
        (if rooted
         then clean_loop (S (String.length path)) rooted rest1 ["/"%char] 1
         else clean_loop (S (String.length path)) rooted path [] 0);
      match out with
      | [] => Ok "."
      | _ => Ok (string_of_list_ascii (rev out))
      end
  end.

(** The loop of [Join] that builds [buf]. *)
Fixpoint join_buf (elem : list string) (buf : string) : string :=
  match elem with
  | [] => buf
  | e :: elem' =>
      if Nat.ltb 0 (String.length buf) || nonempty e then
        join_buf elem'
          ((if Nat.ltb 0 (String.length buf) then buf +:+ "/" else buf) +:+ e)
      else join_buf elem' buf
  end.

(** [func Join(elem ...string) string] *)
Definition Join (elem : list string) : result string :=
  let size := list_sum (map String.length elem) in
  if Nat.eqb size 0 then Ok ""
  else Clean (join_buf elem "").

End Path.

(** ** route.go: groups and registration *)

(** [regEnLetter = regexp.MustCompile("^[A-Z]+$")], matched on a string. *)
Definition is_upper (c : ascii) : bool :=
  (Nat.leb 65 (nat_of_ascii c) && Nat.leb (nat_of_ascii c) 90)%bool.

Definition regEnLetter (s : string) : bool :=
  nonempty s && forallb is_upper (list_ascii_of_string s).

(** [func (r *Route) Use(middleware ...HandlerFunc)]: [append] keeps a nil
    slice nil when nothing is appended. *)
Definition Use (r : Route) (middleware : HandlersChain) : Route :=
  mkRoute (routePath r)
          (match Handler r, elems middleware with
           | None, [] => None
           | h, ms => Some (elems h ++ ms)%list
           end)
          (root r).

(** [func (r *Route) joinHandler(handlers HandlersChain) HandlersChain]:
    [make] gives a slice that is not nil, whatever its length. *)
Definition joinHandler (r : Route) (handlers : HandlersChain) : HandlersChain :=
  Some (elems (Handler r) ++ elems handlers)%list.

(** [func lastChar(str string) uint8] *)
Fixpoint last_byte (c : ascii) (s : string) : ascii :=
  match s with
  | EmptyString => c
  | String c' s' => last_byte c' s'
  end.

Definition lastChar (str : string) : result ascii :=
  match str with
  | EmptyString => Panic "The length of the string can't be 0"
  | String c s => Ok (last_byte c s)
  end.

(** [func joinPath(absolutePath, relativePath string) string]; the second
    [lastChar] is evaluated only when the first comparison holds. *)
Definition joinPath (absolutePath relativePath : string) : result string :=
  if decide (relativePath = "") then Ok absolutePath
  else
    call finalPath <- Path.Join [absolutePath; relativePath];
    call a <- lastChar relativePath;
    if Ascii.eqb a "/" then
      call b <- lastChar finalPath;
      if negb (Ascii.eqb b "/") then Ok (finalPath +:+ "/") else Ok finalPath
    else Ok finalPath.

(** [func (r *Route) jointAbsolutePath(relativePath string) string] *)
Definition jointAbsolutePath (r : Route) (relativePath : string) : result string :=
  joinPath (routePath r) relativePath.

(** [func (r *Route) Group(path string, handlers ...HandlerFunc) *Route] *)
Definition Group (r : Route) (path : string) (handlers : HandlersChain)
  : result Route :=
  call p <- jointAbsolutePath r path;
  Ok (mkRoute p (joinHandler r handlers) false).

(** [func (r *Route) handle(method, relativePath string,
      handlers ...HandlerFunc)], on the engine [e] the route belongs to. *)
Definition handle (r : Route) (e : Engine) (method relativePath : string)
    (handlers : HandlersChain) : result Engine :=
  if negb (regEnLetter method) then Panic ("invalid method '" +:+ method +:+ "'")
  else
    call absolutePath <- jointAbsolutePath r relativePath;
    let handlers := joinHandler r handlers in
    addRoute e method absolutePath handlers.

(** ** glaze.go: ServeHTTP *)

(** What [ServeHTTP] does with a request: [http.NotFound], or the Context
    as the handler chain leaves it. *)
Inductive served : Type :=
| NotFound
| Dispatched (outcome : result Context).

(** [func (e *Engine) ServeHTTP(w http.ResponseWriter, req *http.Request)];
    [Next] nests at most one call per handler and one more, which the fuel
    covers. *)
Definition startContext (handlers : HandlersChain)
    (params : option (gmap string string)) : Context :=
  mkContext [] params handlers (-1) None false [].

Definition dispatch (handlers : HandlersChain)
    (params : option (gmap string string)) : result Context :=
  Next (2 + length (elems handlers)) (startContext handlers params).

Definition ServeHTTP (e : Engine) (method path : string) : served :=
  let '(handlers, params) := findRoute e method path in
  match handlers with
  | None => NotFound
  | Some _ => Dispatched (dispatch handlers params)
  end.

(** * Vocabulary of the properties *)

(** [k] slashes in a row. *)
Fixpoint slashes (k : nat) : string :=
  match k with O => "" | S k' => String Strings.slash (slashes k') end.

(** The non-empty pieces of a path, cut at every slash. *)
Definition segments_of (p : string) : list string :=
  List.filter nonempty (Strings.Split p Strings.slash).

(** A string with a slash in it. *)
Fixpoint has_slash (s : string) : bool :=
  match s with
  | EmptyString => false
  | String c r => Ascii.eqb c Strings.slash || has_slash r
  end.

(** A position of the tree is named by the edges from the root down to it:
    [Some s] is the static child of key [s], [None] the parameter child. *)
Definition edge (part : string) : option string :=
  if Strings.HasPrefix part ":" then None else Some part.

Definition shape (parts : list string) : list (option string) := map edge parts.

Definition child_at (n : node) (k : option string) : option node :=
  match k with
  | None => paramNode n
  | Some s => children n !! s
  end.

Fixpoint descend (n : node) (sh : list (option string)) : option node :=
  match sh with
  | [] => Some n
  | k :: sh' =>
      match child_at n k with
      | Some n' => descend n' sh'
      | None => None
      end
  end.

Definition node_at (e : Engine) (method : string) (sh : list (option string))
  : option node :=
  match trees e !! method with
  | Some root => descend root sh
  | None => None
  end.

(** A node as [addRoute] creates it: no handlers, nothing below. *)
Definition is_new (n : node) : Prop :=
  node_handlers n = None /\ children n = ∅ /\ paramNode n = None.

(** No static child is keyed by a parameter token: the static branch of
    [addRoute] is the only one that adds a key, and it is taken for
    segments without the [":"] prefix. *)
Inductive static_keys_ok : node -> Prop :=
| static_keys_ok_intro n :
    (forall k c, children n !! k = Some c ->
                 Strings.HasPrefix k ":" = false /\ static_keys_ok c) ->
    (forall pn, paramNode n = Some pn -> static_keys_ok pn) ->
    static_keys_ok n.

Definition engine_ok (e : Engine) : Prop :=
  forall m root, trees e !! m = Some root -> static_keys_ok root.

(** A call of [addRoute]. *)
Record registration : Type := mkRegistration {
  reg_method : string;
  reg_path : string;
  reg_handlers : HandlersChain
}.

(** The calls of a list made one after the other, none of them panicking. *)
Fixpoint register_all (e : Engine) (rs : list registration) : result Engine :=
  match rs with
  | [] => Ok e
  | r :: rs' =>
      call e' <- addRoute e (reg_method r) (reg_path r) (reg_handlers r);
      register_all e' rs'
  end.

Definition is_param (part : string) : bool := Strings.HasPrefix part ":".

(** A request path matches a route when both have the same number of
    segments and every segment of the route is a parameter or the segment
    of the request at its place. *)
Fixpoint matches (pattern request : list string) : bool :=
  match pattern, request with
  | [], [] => true
  | pat :: pattern', seg :: request' =>
      (is_param pat || String.eqb pat seg) && matches pattern' request'
  | _, _ => false
  end.

Definition no_param_segments (path : string) : Prop :=
  Forall (fun part => is_param part = false) (splitClean path).


(** The positions [0 .. k-1] of a chain, in order. *)
Definition positions (k : nat) : list Z := map Z.of_nat (seq 0 k).

(** The first Context [Next] hands to the handler at position 0. *)
Definition entryContext (handlers : HandlersChain)
    (params : option (gmap string string)) : Context :=
  record_invocation (set_index (startContext handlers params) 0).

(** The handlers [Next] called, in the order of the calls. *)
Definition invoked_handlers (c : Context) : list (option HandlerFunc) :=
  map (handler_at (handlers c)) (invoked c).

(** The largest value of a Go [int]. *)
Definition max_int : Z := 2 ^ 63 - 1.

(** An upper bound of the number of calls of [Next] that a dispatch of the
    chain makes after the first: one after each handler returns, and those
    in the bodies. *)
Definition calls_bound (hs : list HandlerFunc) : nat :=
  list_sum (map (fun h => S (calls_of_Next h)) hs).

(** What the handlers after position [i] may still add to the index. *)
Definition pending (hs : list HandlerFunc) (i : Z) : Z :=
  Z.of_nat (calls_bound (drop (Z.to_nat (i + 1)) hs)).

Definition potential (hs : list HandlerFunc) (c : Context) : Z :=
  index c + pending hs (index c).

(** The state of a dispatch of [hs] in which no handler has aborted: the
    handlers up to the index, and no other, have been invoked, in order. *)
Definition in_order (hs : list HandlerFunc) (c : Context) : Prop :=
  elems (handlers c) = hs /\ stopped c = false /\ -1 <= index c /\
  invoked c = positions (Z.to_nat (Z.min (index c + 1) (Z.of_nat (length hs)))).

(** What a call of [Next] does in such a state, when made at an index of
    [lo] at least: it returns, with every handler invoked. *)
Definition runs_the_rest (hs : list HandlerFunc) (lo : Z)
    (next : Context -> result Context) : Prop :=
  forall c, in_order hs c -> lo <= index c -> potential hs c + 1 <= max_int ->
    exists c', next c = Ok c' /\ in_order hs c' /\
               Z.of_nat (length hs) <= index c' /\ index c <= index c' /\
               potential hs c' <= potential hs c + 1 /\
               Params c' = Params c.

(** The values of a Go [int]. *)
Definition in_int (z : Z) : Prop := - 2 ^ 63 <= z <= max_int.

(** A call of [next] at an index of [lo] at least does not run out of
    fuel, and leaves the chain and the order of the indexes as they are. *)
Definition within_fuel (chain : HandlersChain) (lo : Z)
    (next : Context -> result Context) : Prop :=
  forall c, handlers c = chain -> in_int (index c) -> lo <= index c ->
    next c <> OutOfFuel /\
    (forall c', next c = Ok c' ->
                handlers c' = chain /\ in_int (index c') /\ index c <= index c').

(** The state of a dispatch of [hs] whose handler at position [k] is the
    first to abort: before the abort the handlers up to the index, all
    before [k], have been invoked; after it, those up to [k]. *)
Definition up_to_abort (hs : list HandlerFunc) (k : nat) (c : Context) : Prop :=
  elems (handlers c) = hs /\ -1 <= index c /\
  (stopped c = false /\ index c < Z.of_nat k /\
   invoked c = positions (Z.to_nat (index c + 1))
   \/
   stopped c = true /\ invoked c = positions (S k)).

(** What a call of [Next] does in such a state: it returns with the flag
    set. *)
Definition runs_to_abort (hs : list HandlerFunc) (k : nat) (lo : Z)
    (next : Context -> result Context) : Prop :=
  forall c, up_to_abort hs k c -> (stopped c = false -> lo <= index c) ->
    exists c', next c = Ok c' /\ up_to_abort hs k c' /\ stopped c' = true.

(** No two slashes side by side. *)
Fixpoint no_double_slash (l : list ascii) : bool :=
  match l with
  | [] => true
  | a :: l' =>
      match l' with
      | b :: _ => negb (Ascii.eqb a "/" && Ascii.eqb b "/")
      | [] => true
      end && no_double_slash l'
  end.

Definition collapsed (s : string) : bool :=
  no_double_slash (list_ascii_of_string s).

Definition not_slash (c : ascii) : Prop := c <> "/"%char.

(** What holds of the buffer of [Clean] between two turns of its loop,
    without the clause on its last byte: no two slashes side by side; the
    part up to [dotdot] is there, and ends with a slash only as the leading
    slash of a rooted path; a rooted path starts with its slash. *)
Definition buf_pre (rooted : bool) (out : list ascii) (dotdot : nat) : Prop :=
  no_double_slash out = true /\
  (dotdot <= length out)%nat /\
  (forall pre s, out = (pre ++ s)%list -> length s = dotdot ->
                 head s = Some "/"%char -> rooted = true /\ dotdot = 1%nat) /\
  (rooted = true -> (1 <= dotdot)%nat /\ last out = Some "/"%char).

(** Between two turns the buffer ends with a slash only when it is the
    leading slash alone. *)
Definition buf_ok (rooted : bool) (out : list ascii) (dotdot : nat) : Prop :=
  buf_pre rooted out dotdot /\
  (head out = Some "/"%char -> out = ["/"%char] /\ rooted = true).

(** ** Engines and chains used as examples *)

Definition pong : HandlerFunc := CallString 200 "pong" Return.

Definition echo : HandlerFunc := CallString 200 "ok" Return.

Definition demo_routes : list registration :=
  [ mkRegistration "GET" "/ping" (Some [pong]);
    mkRegistration "GET" "/message/:param" (Some [echo]);
    mkRegistration "GET" "/message/:param/:param2" (Some [echo; pong]);
    mkRegistration "POST" "/api/query" (Some [echo]) ].

Definition engine_of (r : result Engine) : Engine :=
  match r with Ok e => e | _ => New end.

Definition demo_engine : Engine := engine_of (register_all New demo_routes).

Definition node_of (o : option node) : node := default rootNode o.

(** A middleware that drives the rest of the chain itself and writes once
    the rest is done. *)
Definition logger : HandlerFunc := CallNext (CallString 0 "logged" Return).

Definition ctx_of (r : result Context) : Context :=
  match r with Ok c => c | _ => startContext None None end.

(** The middleware [auth] of api_test.go: it answers 404 and aborts unless
    the parameter [id] is ["Hello"]. *)
Definition auth : HandlerFunc :=
  IfElse (fun v => bool_decide (default ∅ (seenParams v) !! "id" = Some "Hello"))
         Return
         (CallString 404 "param should be Hello" (CallAbort Return)).

Definition answer (msg : string) : HandlerFunc := CallString 200 msg Return.

(** [r.Get(path, handlers...)] on a new engine. *)
Definition engine_with (path : string) (hs : list HandlerFunc) : Engine :=
  engine_of (handle (engineRoute New) New "GET" path (Some hs)).

Definition written (s : served) : list sinkCall :=
  match s with
  | Dispatched (Ok c) => Writer c
  | _ => []
  end.

(** * More of the code *)

(** ** The Context file: Param, Get *)

(** [func (c *Context) Param(key string) string]: reading a nil map, or a
    key that is not there, gives the empty string. *)
Definition Param (c : Context) (key : string) : string :=
  default "" (default ∅ (Params c) !! key).


(** The state of a dispatch of [hs], whatever the handlers do: the
    handlers up to the index have been invoked, in order. *)
Definition in_sequence (hs : list HandlerFunc) (c : Context) : Prop :=
  elems (handlers c) = hs /\ -1 <= index c /\
  invoked c = positions (Z.to_nat (Z.min (index c + 1) (Z.of_nat (length hs)))).

(** What a call of [Next] does in such a state, when made at an index of
    [lo] at least: it returns; unless the flag is set at the end, every
    handler has been invoked. *)
Definition advances (hs : list HandlerFunc) (lo : Z)
    (next : Context -> result Context) : Prop :=
  forall c, in_sequence hs c -> lo <= index c -> potential hs c + 1 <= max_int ->
    exists c', next c = Ok c' /\ in_sequence hs c' /\
               index c <= index c' /\
               (stopped c = false -> index c < index c') /\
               (stopped c' = false -> Z.of_nat (length hs) <= index c') /\
               potential hs c' <= potential hs c + 1.


(** ** Vocabulary of the properties of the tree *)

Definition info_of (r : registration) : RouteInfo :=
  mkRouteInfo (reg_method r) (reg_path r).

(** The name a parameter segment gives its node: the segment without its
    first byte. *)
Definition param_name (part : string) : string :=
  match part with EmptyString => EmptyString | String _ r => r end.

(** The bindings a request gets from a route it matches: every parameter
    segment of the route binds its name to the segment of the request at
    its place, a later binding of a name replacing an earlier one. *)
Fixpoint bind_params (pattern request : list string)
    (params : option (gmap string string)) : option (gmap string string) :=
  match pattern, request with
  | pat :: pattern', seg :: request' =>
      bind_params pattern' request'
        (if is_param pat
         then Some (<[param_name pat := seg]> (default ∅ params))
         else params)
  | _, _ => params
  end.

(** Along the positions of a route, no static child is keyed by the
    segment the request has at a parameter position. *)
Fixpoint unshadowed (n : node) (pattern request : list string) : bool :=
  match pattern, request with
  | pat :: pattern', seg :: request' =>
      match child_at n (edge pat) with
      | Some n' =>
          (if is_param pat then bool_decide (children n !! seg = None) else true)
          && unshadowed n' pattern' request'
      | None => true
      end
  | _, _ => true
  end.

Definition unshadowed_in (e : Engine) (method : string)
    (pattern request : list string) : bool :=
  match trees e !! method with
  | Some root => unshadowed root pattern request
  | None => true
  end.

(** The path with the given segments, each after a slash. *)
Fixpoint rebuild (segs : list string) : string :=
  match segs with
  | [] => ""
  | s :: segs' => "/" +:+ s +:+ rebuild segs'
  end.

Definition is_segment (s : string) : Prop := s <> "" /\ has_slash s = false.

Definition param_conflict_error {A : Type} (r : result A) : Prop :=
  match r with
  | Panic msg => String.prefix "conflict: param" msg = true
  | _ => False
  end.

(** The names of the parameter segments of a route, in order. *)
Definition param_names (pattern : list string) : list string :=
  map param_name (List.filter is_param pattern).

(** ** Vocabulary of the properties of route.go *)

(** The segments ["."] and [".."], which [path.Clean] removes or resolves. *)
Definition is_dot (s : string) : bool := String.eqb s "." || String.eqb s "..".

Definition dot_free (p : string) : Prop :=
  Forall (fun s => is_dot s = false) (segments_of p).

(** The bytes of the buffer of [Clean], first written first. *)
Definition buffer (out : list ascii) : string := string_of_list_ascii (rev out).

(** ** glaze.go: RoutesInfo *)

(** The comparison [RoutesInfo] gives [sort.Slice]: the longer path first,
    and among paths of one length the smaller in the order of their
    bytes. *)
Definition less (a b : RouteInfo) : bool :=
  if Nat.eqb (String.length (Path a)) (String.length (Path b))
  then String.ltb (Path a) (Path b)
  else Nat.ltb (String.length (Path b)) (String.length (Path a)).

(** [sort.Slice] sorts in place and is not stable: Go leaves open the
    order it gives elements that [less] does not tell apart (here, routes
    with one path and different methods).  What it promises is an outcome
    in which no element comes before one it is [less]-greater than. *)
Definition not_after (a b : RouteInfo) : Prop := less b a = false.

Definition sorted_outcome (result input : list RouteInfo) : Prop :=
  Permutation result input /\ StronglySorted not_after result.

(** One such outcome: sorting by insertion. *)
Fixpoint insert_by_less (x : RouteInfo) (l : list RouteInfo) : list RouteInfo :=
  match l with
  | [] => [x]
  | y :: l' => if less y x then y :: insert_by_less x l' else x :: l
  end.

Definition sort_Slice (l : list RouteInfo) : list RouteInfo :=
  fold_right insert_by_less [] l.

(** [func (e *Engine) RoutesInfo() []RouteInfo]: a sorted copy of the
    registry. *)
Definition RoutesInfo (e : Engine) : list RouteInfo := sort_Slice (routeList e).

(** The order of the listing, on the paths. *)
Definition path_le (p q : string) : Prop :=
  (String.length q < String.length p)%nat \/
  String.length p = String.length q /\ String.leb p q = true.
(** * Properties *)

(** ** Splitting a path *)

Section SplitFacts.

Local Abbreviation sl := Strings.slash.

Lemma Split_not_nil s c : Strings.Split s c <> [].
Proof.
  destruct s as [|a r]; simpl; [discriminate|].
  destruct (Ascii.eqb a c); [discriminate|].
  destruct (Strings.Split r c); discriminate.
Qed.

Lemma Split_app s1 s2 :
  Strings.Split (s1 +:+ String sl s2) sl
  = (Strings.Split s1 sl ++ Strings.Split s2 sl)%list.
Proof.
  induction s1 as [|a r IH]; simpl.
  - reflexivity.
  - rewrite IH. destruct (Ascii.eqb a sl); [reflexivity|].
    pose proof (Split_not_nil r sl) as Hne.
    destruct (Strings.Split r sl); [congruence|reflexivity].
Qed.

Lemma segments_of_app s1 s2 :
  segments_of (s1 +:+ String sl s2) = (segments_of s1 ++ segments_of s2)%list.
Proof. unfold segments_of. rewrite Split_app. apply List.filter_app. Qed.

Lemma segments_of_empty : segments_of "" = [].
Proof. reflexivity. Qed.

Lemma segments_of_slash s : segments_of (String sl s) = segments_of s.
Proof. reflexivity. Qed.

Lemma segments_of_slashes k : segments_of (slashes k) = [].
Proof. induction k; [reflexivity|]. simpl slashes. now rewrite segments_of_slash. Qed.

Lemma append_assoc (a b c : string) : (a +:+ b) +:+ c = a +:+ (b +:+ c).
Proof. induction a as [|x a IH]; simpl; [reflexivity|now rewrite IH]. Qed.

Lemma append_empty_r (a : string) : a +:+ "" = a.
Proof. induction a as [|x a IH]; simpl; [reflexivity|now rewrite IH]. Qed.

Lemma segments_of_app_slashes s k : segments_of (s +:+ slashes k) = segments_of s.
Proof.
  destruct k as [|k]; simpl.
  - now rewrite append_empty_r.
  - rewrite segments_of_app, segments_of_slashes. apply app_nil_r.
Qed.

Lemma trimLeftByte_segments s : segments_of (Strings.trimLeftByte s sl) = segments_of s.
Proof.
  induction s as [|a r IH]; simpl; [reflexivity|].
  destruct (Ascii.eqb_spec a sl) as [->|Hne]; [|reflexivity].
  now rewrite IH, segments_of_slash.
Qed.

(** [trimRightByte] removes a run of slashes at the end, and only that. *)
Lemma trimRightByte_spec s :
  exists k, s = Strings.trimRightByte s sl +:+ slashes k.
Proof.
  induction s as [|a r [k IH]]; simpl.
  - exists O. reflexivity.
  - destruct (Strings.trimRightByte r sl) as [|b r'] eqn:E.
    + destruct (Ascii.eqb_spec a sl) as [->|Hne].
      * exists (S k). simpl in *. now rewrite IH.
      * exists k. simpl in *. now rewrite IH.
    + exists k. rewrite IH at 1. reflexivity.
Qed.

Lemma trimRightByte_segments s : segments_of (Strings.trimRightByte s sl) = segments_of s.
Proof.
  destruct (trimRightByte_spec s) as [k Hk].
  rewrite Hk at 2. now rewrite segments_of_app_slashes.
Qed.

(** [splitClean] gives the non-empty pieces of the path as it stands:
    the trimming changes nothing. *)
Lemma splitClean_segments p : splitClean p = segments_of p.
Proof.
  unfold splitClean.
  rewrite <- (trimRightByte_segments p), <- (trimLeftByte_segments (Strings.trimRightByte p sl)).
  fold (Strings.Trim p sl).
  destruct (decide (Strings.Trim p sl = "")) as [->|_]; reflexivity.
Qed.

End SplitFacts.

(** ** The routing tree *)

Section TreeFacts.

Implicit Types (n current next : node) (parts : list string)
               (sh : list (option string)) (hs : HandlersChain).

Lemma is_param_from_1 part :
  is_param part = true -> exists name, from_1 part = Ok name.
Proof. destruct part; [discriminate|]. intros _. eexists. reflexivity. Qed.

Lemma edge_param part : is_param part = true -> edge part = None.
Proof. unfold edge, is_param. now intros ->. Qed.

Lemma edge_static part : is_param part = false -> edge part = Some part.
Proof. unfold edge, is_param. now intros ->. Qed.

(** A node that was just created has nothing below it. *)
Lemma descend_new n sh x : is_new n -> descend n sh = Some x -> sh = [] /\ x = n.
Proof.
  intros (Hh & Hc & Hp). destruct sh as [|[s|] sh]; simpl.
  - intros [= <-]. auto.
  - rewrite Hc, lookup_empty. discriminate.
  - rewrite Hp. discriminate.
Qed.

(** The two ways one turn of the loop of [addRoute] goes through. *)
Lemma addParts_cons_inv method path part parts hs n n' :
  addParts method path (part :: parts) hs n = Ok n' ->
  (is_param part = true /\ children n !! part = None /\
   exists next next',
     (paramNode n = Some next \/
      paramNode n = None /\ is_new next /\ param next = true /\
      from_1 part = Ok (segment next)) /\
     addParts method path parts hs next = Ok next' /\
     n' = set_paramNode n next')
  \/
  (is_param part = false /\ paramNode n = None /\
   exists next next',
     (children n !! part = Some next \/
      children n !! part = None /\ is_new next /\ param next = false /\
      segment next = part) /\
     addParts method path parts hs next = Ok next' /\
     n' = set_child n part next').
Proof.
  simpl. unfold is_param. destruct (Strings.HasPrefix part ":") eqn:Hp.
  - destruct (children n !! part) eqn:Hc; [discriminate|].
    destruct (paramNode n) as [pn|] eqn:Hpn; simpl.
    + destruct (addParts method path parts hs pn) as [next'| |] eqn:Hrec;
        simpl; try discriminate.
      intros [= <-]. left. repeat split. exists pn, next'. auto.
    + destruct (is_param_from_1 part Hp) as [name Hname]. rewrite Hname. simpl.
      destruct (addParts method path parts hs (mkNode name true None ∅ None))
        as [next'| |] eqn:Hrec; simpl; try discriminate.
      intros [= <-]. left. repeat split.
      exists (mkNode name true None ∅ None), next'.
      split; [right; repeat split; assumption|]. auto.
  - destruct (paramNode n) eqn:Hpn; [discriminate|].
    destruct (children n !! part) as [c|] eqn:Hc; simpl.
    + destruct (addParts method path parts hs c) as [next'| |] eqn:Hrec;
        simpl; try discriminate.
      intros [= <-]. right. repeat split. exists c, next'. auto.
    + destruct (addParts method path parts hs (mkNode part false None ∅ None))
        as [next'| |] eqn:Hrec; simpl; try discriminate.
      intros [= <-]. right. repeat split.
      exists (mkNode part false None ∅ None), next'.
      split; [right; repeat split|]. auto.
Qed.

Lemma addParts_nil_inv method path hs n n' :
  addParts method path [] hs n = Ok n' ->
  node_handlers n = None /\ n' = set_handlers n hs.
Proof. simpl. destruct (node_handlers n); [discriminate|]. intros [= <-]. auto. Qed.

(** [addRoute] never returns [OutOfFuel]: it has no fuel. *)
Lemma addParts_fuel method path parts hs n :
  addParts method path parts hs n <> OutOfFuel.
Proof.
  revert n. induction parts as [|part parts IH]; intros n; simpl.
  - destruct (node_handlers n); discriminate.
  - destruct (Strings.HasPrefix part ":") eqn:Hp.
    + destruct (children n !! part); [discriminate|].
      destruct (paramNode n) as [pn|]; simpl.
      * specialize (IH pn). destruct (addParts method path parts hs pn);
          simpl; congruence.
      * destruct (is_param_from_1 part Hp) as [name ->]. simpl.
        specialize (IH (mkNode name true None ∅ None)).
        destruct (addParts method path parts hs _); simpl; congruence.
    + destruct (paramNode n); [discriminate|]. simpl.
      match goal with |- context [addParts _ _ _ _ ?x] => specialize (IH x) end.
      destruct (addParts method path parts hs _); simpl; congruence.
Qed.

(** After a route is in, the position its segments name holds its
    handlers. *)
Lemma addParts_descend_new method path parts hs n n' :
  addParts method path parts hs n = Ok n' ->
  exists x, descend n' (shape parts) = Some x /\ node_handlers x = hs.
Proof.
  revert n n'. induction parts as [|part parts IH]; intros n n' H.
  - apply addParts_nil_inv in H as [_ ->]. exists (set_handlers n hs). auto.
  - apply addParts_cons_inv in H
      as [(Hp & Hc & next & next' & _ & Hrec & ->)|(Hp & Hpn & next & next' & _ & Hrec & ->)];
      destruct (IH _ _ Hrec) as (x & Hx & Hhs); exists x; split; auto; simpl.
    + rewrite (edge_param _ Hp). simpl. exact Hx.
    + rewrite (edge_static _ Hp). simpl. rewrite lookup_insert_eq. exact Hx.
Qed.

(** Registration only adds: every position that exists keeps existing,
    with the same segment name and kind, and with its handlers if it had
    some. *)
Lemma addParts_preserves method path parts hs n n' sh x :
  addParts method path parts hs n = Ok n' ->
  descend n sh = Some x ->
  exists x', descend n' sh = Some x' /\ segment x' = segment x /\
             param x' = param x /\
             (node_handlers x <> None -> node_handlers x' = node_handlers x).
Proof.
  revert n n' sh x. induction parts as [|part parts IH]; intros n n' sh x H Hd.
  - apply addParts_nil_inv in H as [Hnone ->].
    destruct sh as [|k sh].
    + injection Hd as <-. exists (set_handlers n hs). repeat split; auto.
      intros Hne. contradiction.
    + exists x. split; [destruct k; exact Hd|]. auto.
  - apply addParts_cons_inv in H
      as [(Hp & Hc & next & next' & Hnext & Hrec & ->)
         |(Hp & Hpn & next & next' & Hnext & Hrec & ->)].
    + destruct sh as [|[s|] sh].
      * injection Hd as <-. eexists. split; [reflexivity|]. auto.
      * exists x. auto.
      * simpl in Hd. destruct (paramNode n) as [pn|] eqn:Hpn; [|discriminate].
        destruct Hnext as [[= ->]|[[=] _]].
        simpl. eapply IH; eauto.
    + destruct sh as [|[s|] sh].
      * injection Hd as <-. eexists. split; [reflexivity|]. auto.
      * simpl in Hd. simpl. destruct (decide (part = s)) as [->|Hne].
        -- rewrite lookup_insert_eq.
           destruct (children n !! s) as [c|] eqn:Hc; [|discriminate].
           destruct Hnext as [[= ->]|[[=] _]]. eapply IH; eauto.
        -- rewrite lookup_insert_ne by assumption. exists x.
           destruct (children n !! s); [|discriminate]. auto.
      * simpl in Hd. rewrite Hpn in Hd. discriminate.
Qed.

(** Registration adds handlers at one position only. *)
Lemma addParts_only_new method path parts hs n n' sh x' h :
  addParts method path parts hs n = Ok n' ->
  descend n' sh = Some x' -> node_handlers x' = Some h ->
  (sh = shape parts /\ hs = Some h) \/
  (exists x, descend n sh = Some x /\ node_handlers x = Some h).
Proof.
  revert n n' sh x'. induction parts as [|part parts IH]; intros n n' sh x' H Hd Hh.
  - apply addParts_nil_inv in H as [Hnone ->].
    destruct sh as [|k sh].
    + injection Hd as <-. left. auto.
    + right. exists x'. split; [|assumption]. destruct k; exact Hd.
  - apply addParts_cons_inv in H
      as [(Hp & Hc & next & next' & Hnext & Hrec & ->)
         |(Hp & Hpn & next & next' & Hnext & Hrec & ->)].
    + destruct sh as [|[s|] sh].
      * injection Hd as <-. right. exists n. auto.
      * right. exists x'. auto.
      * simpl in Hd.
        destruct (IH _ _ _ _ Hrec Hd Hh) as [[-> ->]|(x & Hx & Hxh)].
        -- left. split; [|reflexivity]. simpl. now rewrite (edge_param _ Hp).
        -- right. destruct Hnext as [Hpn|(Hpn & Hnew & _)].
           ++ exists x. simpl. rewrite Hpn. auto.
           ++ apply (descend_new _ _ _ Hnew) in Hx as [_ ->].
              destruct Hnew as (Hn & _). congruence.
    + destruct sh as [|[s|] sh].
      * injection Hd as <-. right. exists n. auto.
      * simpl in Hd. destruct (decide (part = s)) as [->|Hne].
        -- rewrite lookup_insert_eq in Hd.
           destruct (IH _ _ _ _ Hrec Hd Hh) as [[-> ->]|(x & Hx & Hxh)].
           ++ left. split; [|reflexivity]. simpl. now rewrite (edge_static _ Hp).
           ++ right. destruct Hnext as [Hc|(Hc & Hnew & _)].
              ** exists x. simpl. rewrite Hc. auto.
              ** apply (descend_new _ _ _ Hnew) in Hx as [_ ->].
                 destruct Hnew as (Hn & _). congruence.
        -- rewrite lookup_insert_ne in Hd by assumption.
           right. exists x'. auto.
      * simpl in Hd. rewrite Hpn in Hd. discriminate.
Qed.

End TreeFacts.

Section LookupFacts.

Implicit Types (n current next : node) (parts : list string)
               (sh : list (option string)) (hs : HandlersChain)
               (params : option (gmap string string)).

Lemma static_keys_ok_new n : is_new n -> static_keys_ok n.
Proof.
  intros (_ & Hc & Hp). constructor.
  - intros k c. rewrite Hc, lookup_empty. discriminate.
  - intros pn. rewrite Hp. discriminate.
Qed.

Lemma static_keys_ok_root : static_keys_ok rootNode.
Proof. apply static_keys_ok_new. repeat split. Qed.

Lemma static_keys_ok_child n k c :
  static_keys_ok n -> children n !! k = Some c ->
  is_param k = false /\ static_keys_ok c.
Proof. intros Hok. inversion Hok as [? Hch _]. apply Hch. Qed.

Lemma static_keys_ok_paramNode n pn :
  static_keys_ok n -> paramNode n = Some pn -> static_keys_ok pn.
Proof. intros Hok. inversion Hok as [? _ Hpn]. apply Hpn. Qed.

(** A parameter token is the key of no static child, so the first test
    of the parameter branch of [addRoute] never holds. *)
Lemma param_token_is_no_key n part :
  static_keys_ok n -> is_param part = true -> children n !! part = None.
Proof.
  intros Hok Hp. destruct (children n !! part) as [c|] eqn:Hc; [|reflexivity].
  destruct (static_keys_ok_child _ _ _ Hok Hc) as [Hf _]. congruence.
Qed.

Lemma addParts_static_keys_ok method path parts hs n n' :
  static_keys_ok n -> addParts method path parts hs n = Ok n' ->
  static_keys_ok n'.
Proof.
  revert n n'. induction parts as [|part parts IH]; intros n n' Hok H.
  - apply addParts_nil_inv in H as [_ ->].
    inversion Hok as [? Hch Hpn]. constructor; assumption.
  - apply addParts_cons_inv in H
      as [(Hp & Hc & next & next' & Hnext & Hrec & ->)
         |(Hp & Hpn & next & next' & Hnext & Hrec & ->)].
    + assert (static_keys_ok next) as Hnok.
      { destruct Hnext as [Hpn|(_ & Hnew & _)].
        - eapply static_keys_ok_paramNode; eauto.
        - now apply static_keys_ok_new. }
      constructor; simpl.
      * intros k c. apply static_keys_ok_child. assumption.
      * intros pn [= <-]. eapply IH; eauto.
    + assert (static_keys_ok next) as Hnok.
      { destruct Hnext as [Hc|(_ & Hnew & _)].
        - eapply static_keys_ok_child; eauto.
        - now apply static_keys_ok_new. }
      constructor; simpl.
      * intros k c. destruct (decide (part = k)) as [<-|Hne].
        -- rewrite lookup_insert_eq. intros [= <-]. split; [assumption|].
           eapply IH; eauto.
        -- rewrite lookup_insert_ne by assumption.
           apply static_keys_ok_child. assumption.
      * intros pn. rewrite Hpn. discriminate.
Qed.

(** Resolution of the very segments of a route walks to the position
    the route was put at. *)
Lemma findParts_follows_shape parts n x params :
  static_keys_ok n -> descend n (shape parts) = Some x ->
  exists params', findParts parts n params = Some (x, params') /\
                  (Forall (fun part => is_param part = false) parts ->
                   params' = params).
Proof.
  revert n params. induction parts as [|part parts IH]; intros n params Hok Hd.
  - injection Hd as <-. exists params. auto.
  - simpl in Hd. unfold edge in Hd. fold (is_param part) in Hd.
    destruct (is_param part) eqn:Hp; simpl in Hd.
    + destruct (paramNode n) as [pn|] eqn:Hpn; [|discriminate].
      simpl. rewrite (param_token_is_no_key _ _ Hok Hp), Hpn.
      destruct (IH pn (Some (<[segment pn := part]> (default ∅ params)))
                  (static_keys_ok_paramNode _ _ Hok Hpn) Hd)
        as (params' & Hf & _).
      exists params'. split; [assumption|].
      intros Hall. inversion Hall; congruence.
    + destruct (children n !! part) as [c|] eqn:Hc; [|discriminate].
      simpl. rewrite Hc.
      destruct (static_keys_ok_child _ _ _ Hok Hc) as [_ Hcok].
      destruct (IH c params Hcok Hd) as (params' & Hf & Hsame).
      exists params'. split; [assumption|].
      intros Hall. inversion Hall; auto.
Qed.

(** Resolution ends at a position whose edges agree with the segments of
    the request: a static edge is the segment itself. *)
Lemma findParts_sound parts n params x params' :
  findParts parts n params = Some (x, params') ->
  exists sh, descend n sh = Some x /\
             Forall2 (fun k part => k = None \/ k = Some part) sh parts.
Proof.
  revert n params. induction parts as [|part parts IH]; intros n params H.
  - injection H as <- <-. exists []. split; [reflexivity|constructor].
  - simpl in H. destruct (children n !! part) as [c|] eqn:Hc.
    + destruct (IH _ _ H) as (sh & Hd & Hall).
      exists (Some part :: sh). split.
      * simpl. now rewrite Hc.
      * constructor; auto.
    + destruct (paramNode n) as [pn|] eqn:Hpn; [|discriminate].
      destruct (IH _ _ H) as (sh & Hd & Hall).
      exists (None :: sh). split.
      * simpl. now rewrite Hpn.
      * constructor; auto.
Qed.

Lemma shape_matches pattern request :
  Forall2 (fun k part => k = None \/ k = Some part) (shape pattern) request ->
  matches pattern request = true.
Proof.
  revert request. induction pattern as [|pat pattern IH]; intros request H.
  - inversion H. reflexivity.
  - inversion H as [|k seg sh' request' Hk Hrest]; subst. simpl.
    rewrite (IH _ Hrest), andb_true_r.
    unfold edge in Hk. fold (is_param pat) in Hk.
    destruct (is_param pat); [reflexivity|]. simpl.
    destruct Hk as [Hk|Hk]; [discriminate|]. injection Hk as ->.
    apply String.eqb_refl.
Qed.


(** Registering the same segments right after a registration of a chain
    that is not nil reaches the duplicate test and fails there. *)
Lemma addParts_twice method path method2 path2 parts hs hs2 n n' :
  addParts method path parts hs n = Ok n' -> hs <> None ->
  addParts method2 path2 parts hs2 n'
  = Panic ("duplicate route detected: " +:+ method2 +:+ " " +:+ path2).
Proof.
  revert n n'. induction parts as [|part parts IH]; intros n n' H Hhs.
  - apply addParts_nil_inv in H as [_ ->]. simpl.
    destruct hs; [reflexivity|congruence].
  - apply addParts_cons_inv in H
      as [(Hp & Hc & next & next' & Hnext & Hrec & ->)
         |(Hp & Hpn & next & next' & Hnext & Hrec & ->)].
    + simpl. unfold is_param in Hp. rewrite Hp, Hc. simpl.
      now rewrite (IH _ _ Hrec Hhs).
    + simpl. unfold is_param in Hp. rewrite Hp, Hpn, lookup_insert_eq.
      now rewrite (IH _ _ Hrec Hhs).
Qed.

End LookupFacts.

(** ** Engines *)

Section EngineFacts.

Implicit Types (e : Engine) (rs : list registration)
               (sh : list (option string)) (hs : HandlersChain).

Lemma addRoute_inv e method path hs e' :
  addRoute e method path hs = Ok e' ->
  exists current',
    addParts method path (splitClean path) hs
             (default rootNode (trees e !! method)) = Ok current' /\
    trees e' = <[method := current']> (trees e) /\
    routeList e' = (routeList e ++ [mkRouteInfo method path])%list.
Proof.
  unfold addRoute.
  destruct (addParts method path (splitClean path) hs _) as [c| |];
    simpl; try discriminate.
  intros [= <-]. exists c. auto.
Qed.

Lemma engine_ok_New : engine_ok New.
Proof. intros m r. simpl. rewrite lookup_empty. discriminate. Qed.

Lemma default_root_ok e method :
  engine_ok e -> static_keys_ok (default rootNode (trees e !! method)).
Proof.
  intros Hok. destruct (trees e !! method) as [r|] eqn:Hr; simpl.
  - eapply Hok; eauto.
  - apply static_keys_ok_root.
Qed.

Lemma addRoute_engine_ok e method path hs e' :
  engine_ok e -> addRoute e method path hs = Ok e' -> engine_ok e'.
Proof.
  intros Hok H. apply addRoute_inv in H as (c & Hc & Ht & _).
  intros m r. rewrite Ht. destruct (decide (method = m)) as [<-|Hne].
  - rewrite lookup_insert_eq. intros [= <-].
    eapply addParts_static_keys_ok; [|exact Hc]. now apply default_root_ok.
  - rewrite lookup_insert_ne by assumption. apply Hok.
Qed.

Lemma addRoute_node_at_new e method path hs e' :
  addRoute e method path hs = Ok e' ->
  exists x, node_at e' method (shape (splitClean path)) = Some x /\
            node_handlers x = hs.
Proof.
  intros H. apply addRoute_inv in H as (c & Hc & Ht & _).
  unfold node_at. rewrite Ht, lookup_insert_eq.
  eapply addParts_descend_new; eauto.
Qed.

Lemma addRoute_preserves e method path hs e' m sh x :
  addRoute e method path hs = Ok e' ->
  node_at e m sh = Some x ->
  exists x', node_at e' m sh = Some x' /\ segment x' = segment x /\
             param x' = param x /\
             (node_handlers x <> None -> node_handlers x' = node_handlers x).
Proof.
  intros H. apply addRoute_inv in H as (c & Hc & Ht & _).
  unfold node_at. rewrite Ht. destruct (decide (method = m)) as [<-|Hne].
  - rewrite lookup_insert_eq.
    destruct (trees e !! method) as [r|]; [|discriminate]. simpl in Hc.
    intros Hd. eapply addParts_preserves; eauto.
  - rewrite lookup_insert_ne by assumption.
    intros Hd. exists x. auto.
Qed.

Lemma addRoute_only_new e method path hs e' m sh x' h :
  addRoute e method path hs = Ok e' ->
  node_at e' m sh = Some x' -> node_handlers x' = Some h ->
  (m = method /\ sh = shape (splitClean path) /\ hs = Some h) \/
  (exists x, node_at e m sh = Some x /\ node_handlers x = Some h).
Proof.
  intros H. apply addRoute_inv in H as (c & Hc & Ht & _).
  unfold node_at. rewrite Ht. destruct (decide (method = m)) as [<-|Hne].
  - rewrite lookup_insert_eq. intros Hd Hh.
    destruct (addParts_only_new _ _ _ _ _ _ _ _ _ Hc Hd Hh)
      as [[-> ->]|(x & Hx & Hxh)]; [left; auto|].
    right. destruct (trees e !! method) as [r|]; simpl in Hx.
    + exists x. auto.
    + apply descend_new in Hx as [_ ->]; [|repeat split]. discriminate.
  - rewrite lookup_insert_ne by assumption. intros Hd Hh.
    right. exists x'. auto.
Qed.

Lemma register_all_cons_inv e r rs e' :
  register_all e (r :: rs) = Ok e' ->
  exists e1, addRoute e (reg_method r) (reg_path r) (reg_handlers r) = Ok e1 /\
             register_all e1 rs = Ok e'.
Proof.
  simpl. destruct (addRoute e _ _ _) as [e1| |]; simpl; try discriminate.
  intros H. exists e1. auto.
Qed.

Lemma register_all_engine_ok e rs e' :
  engine_ok e -> register_all e rs = Ok e' -> engine_ok e'.
Proof.
  revert e. induction rs as [|r rs IH]; intros e Hok H.
  - injection H as <-. assumption.
  - apply register_all_cons_inv in H as (e1 & H1 & H2).
    eapply IH; [|exact H2]. eapply addRoute_engine_ok; eauto.
Qed.

Lemma register_all_preserves e rs e' m sh x :
  register_all e rs = Ok e' ->
  node_at e m sh = Some x ->
  exists x', node_at e' m sh = Some x' /\ segment x' = segment x /\
             param x' = param x /\
             (node_handlers x <> None -> node_handlers x' = node_handlers x).
Proof.
  revert e x. induction rs as [|r rs IH]; intros e x H Hx.
  - injection H as <-. exists x. auto.
  - apply register_all_cons_inv in H as (e1 & H1 & H2).
    destruct (addRoute_preserves _ _ _ _ _ _ _ _ H1 Hx) as (x1 & Hx1 & Hs1 & Hp1 & Hh1).
    destruct (IH _ _ H2 Hx1) as (x' & Hx' & Hs' & Hp' & Hh').
    exists x'. repeat split; try congruence.
    intros Hne. rewrite Hh'; [now apply Hh1|]. rewrite Hh1; assumption.
Qed.

(** Every position that holds handlers was put there by one of the
    registrations. *)
Lemma register_all_only_new e rs e' m sh x' h :
  register_all e rs = Ok e' ->
  node_at e' m sh = Some x' -> node_handlers x' = Some h ->
  (exists r, In r rs /\ reg_method r = m /\
             shape (splitClean (reg_path r)) = sh) \/
  (exists x, node_at e m sh = Some x /\ node_handlers x = Some h).
Proof.
  revert e. induction rs as [|r rs IH]; intros e H Hx Hh.
  - injection H as <-. right. exists x'. auto.
  - apply register_all_cons_inv in H as (e1 & H1 & H2).
    destruct (IH _ H2 Hx Hh) as [(r' & Hin & Hm & Hs)|(x1 & Hx1 & Hh1)].
    + left. exists r'. split; [now right|]. auto.
    + destruct (addRoute_only_new _ _ _ _ _ _ _ _ _ H1 Hx1 Hh1)
        as [(-> & -> & _)|Hold].
      * left. exists r. split; [now left|]. auto.
      * right. assumption.
Qed.

Lemma node_at_New m sh : node_at New m sh = None.
Proof. unfold node_at. simpl. now rewrite lookup_empty. Qed.

(** [findRoute] from the position a path names. *)
Lemma findRoute_at e method path x :
  engine_ok e ->
  node_at e method (shape (splitClean path)) = Some x ->
  fst (findRoute e method path) = node_handlers x /\
  (no_param_segments path -> snd (findRoute e method path) = None).
Proof.
  unfold node_at, findRoute. intros Hok.
  destruct (trees e !! method) as [r|] eqn:Hr; [|discriminate].
  intros Hd.
  destruct (findParts_follows_shape _ _ _ None (Hok _ _ Hr) Hd)
    as (params' & -> & Hsame).
  simpl. split; [reflexivity|]. intros Hnp. now apply Hsame.
Qed.

End EngineFacts.

(** ** Resolution of registered routes *)

(** C1.  In an engine built from [New] by registrations that all went
    through, [findRoute] on the method and path of any of them returns the
    handler chain of that registration, and a nil parameter map when the
    path has no parameter segment.  The chains are those [handle] passes to
    [addRoute]: results of [joinHandler], which are never nil. *)
Theorem registered_routes_resolve (rs : list registration) (e : Engine) :
  register_all New rs = Ok e ->
  Forall (fun r => reg_handlers r <> None) rs ->
  forall r, In r rs ->
    fst (findRoute e (reg_method r) (reg_path r)) = reg_handlers r /\
    (no_param_segments (reg_path r) ->
     snd (findRoute e (reg_method r) (reg_path r)) = None).
Proof.
  intros Hreg. pose proof engine_ok_New as Hok. revert Hreg Hok.
  generalize New as e0.
  induction rs as [|r0 rs IH]; intros e0 H Hok Hnn r Hin; [destruct Hin|].
  apply register_all_cons_inv in H as (e1 & H1 & H2).
  pose proof (addRoute_engine_ok _ _ _ _ _ Hok H1) as Hok1.
  inversion Hnn as [|? ? Hnn0 Hnn']; subst.
  destruct Hin as [<-|Hin]; [|eapply IH; eauto].
  destruct (addRoute_node_at_new _ _ _ _ _ H1) as (x & Hx & Hh).
  destruct (register_all_preserves _ _ _ _ _ _ H2 Hx) as (x' & Hx' & _ & _ & Hkeep).
  rewrite <- Hh, <- Hkeep by congruence.
  apply findRoute_at; [|assumption].
  eapply register_all_engine_ok; eauto.
Qed.

Lemma demo_engine_registered : register_all New demo_routes = Ok demo_engine.
Proof. vm_compute. reflexivity. Qed.

Lemma demo_routes_not_nil : Forall (fun r => reg_handlers r <> None) demo_routes.
Proof. repeat constructor; discriminate. Qed.

Lemma registered_routes_resolve_witness :
  fst (findRoute demo_engine "GET" "/ping") = Some [pong] /\
  snd (findRoute demo_engine "GET" "/ping") = None.
Proof.
  assert (In (mkRegistration "GET" "/ping" (Some [pong])) demo_routes) as Hin
    by (simpl; auto).
  destruct (registered_routes_resolve demo_routes demo_engine
              demo_engine_registered demo_routes_not_nil _ Hin) as [Hh Hp].
  split; [exact Hh|]. apply Hp. repeat constructor.
Defined.

(** [joinHandler] is what makes the chains non-nil. *)
Lemma joinHandler_not_nil r hs : joinHandler r hs <> None.
Proof. discriminate. Qed.

(** ** Requests without a route *)

(** C7.  When no registered route of the method matches the path,
    [findRoute] returns nil handlers and [ServeHTTP] answers with
    [http.NotFound]; when the engine has no tree for the method the result
    is [(nil, nil)].  [findRoute] has no other outcome: it is a total
    function into the pair. *)
Theorem unmatched_request_not_found (rs : list registration) (e : Engine)
    (method path : string) :
  register_all New rs = Ok e ->
  (forall r, In r rs -> reg_method r = method ->
             matches (splitClean (reg_path r)) (splitClean path) = false) ->
  fst (findRoute e method path) = None /\
  ServeHTTP e method path = NotFound /\
  (trees e !! method = None -> findRoute e method path = (None, None)).
Proof.
  intros Hreg Hno.
  assert (fst (findRoute e method path) = None) as Hfst.
  { unfold findRoute.
    destruct (trees e !! method) as [r|] eqn:Hr; [|reflexivity].
    destruct (findParts (splitClean path) r None) as [[x params]|] eqn:Hf;
      [|reflexivity].
    simpl. destruct (node_handlers x) as [h|] eqn:Hh; [|reflexivity].
    exfalso.
    destruct (findParts_sound _ _ _ _ _ Hf) as (sh & Hd & Hall).
    assert (node_at e method sh = Some x) as Hat by (unfold node_at; now rewrite Hr).
    destruct (register_all_only_new _ _ _ _ _ _ _ Hreg Hat Hh)
      as [(r0 & Hin & Hm & Hs)|(x0 & Hx0 & _)].
    - subst sh. apply shape_matches in Hall.
      rewrite (Hno r0 Hin Hm) in Hall. discriminate.
    - rewrite node_at_New in Hx0. discriminate. }
  repeat split.
  - exact Hfst.
  - unfold ServeHTTP. destruct (findRoute e method path) as [hs params].
    simpl in Hfst. now rewrite Hfst.
  - intros Hnone. unfold findRoute. now rewrite Hnone.
Qed.

Lemma unmatched_request_not_found_witness :
  fst (findRoute demo_engine "GET" "/message") = None /\
  ServeHTTP demo_engine "GET" "/message" = NotFound /\
  fst (findRoute demo_engine "DELETE" "/ping") = None.
Proof.
  assert (forall r, In r demo_routes -> reg_method r = "GET" ->
            matches (splitClean (reg_path r)) (splitClean "/message") = false)
    as Hno.
  { intros r Hin Hm. simpl in Hin.
    destruct Hin as [<-|[<-|[<-|[<-|[]]]]]; reflexivity. }
  destruct (unmatched_request_not_found demo_routes demo_engine "GET" "/message"
              demo_engine_registered Hno) as (H1 & H2 & _).
  split; [exact H1|]. split; [exact H2|]. reflexivity.
Defined.

(** ** Registering a route twice *)

Lemma prefix_append (a b : string) : String.prefix a (a +:+ b) = true.
Proof.
  induction a as [|c a IH]; simpl.
  - destruct b; reflexivity.
  - destruct (ascii_dec c c); [assumption|congruence].
Qed.




(** ** Static and parameter children of one node *)

(** A static segment is refused at a node that has a parameter child. *)
Lemma static_under_param_conflicts method path part parts hs n :
  paramNode n <> None -> is_param part = false ->
  conflict_error (addParts method path (part :: parts) hs n).
Proof.
  intros Hpn Hp. simpl. unfold is_param in Hp. rewrite Hp.
  destruct (paramNode n); [|congruence].
  apply (prefix_append "conflict: ").
Qed.

Lemma conflict_error_bind {A B : Type} (r : result A) (k : A -> result B) :
  conflict_error r -> conflict_error (call x <- r; k x).
Proof. destruct r; simpl; [intros []|auto|intros []]. Qed.

(** A static segment asked for at a position that has a parameter child is
    refused with the conflict message, wherever the position is. *)
Lemma static_at_param_position_conflicts method path pre lit rest hs n x :
  descend n (shape pre) = Some x -> paramNode x <> None -> is_param lit = false ->
  conflict_error (addParts method path (pre ++ lit :: rest) hs n).
Proof.
  revert n. induction pre as [|part pre IH]; intros n Hd Hpn Hlit.
  - injection Hd as <-. now apply static_under_param_conflicts.
  - simpl in Hd. unfold edge in Hd. simpl app. cbn [addParts].
    destruct (Strings.HasPrefix part ":"); simpl in Hd.
    + destruct (children n !! part); [apply (prefix_append "conflict: ")|].
      destruct (paramNode n) as [pn|]; [|discriminate]. cbn [bind].
      apply conflict_error_bind. now apply IH.
    + destruct (paramNode n); [apply (prefix_append "conflict: ")|].
      destruct (children n !! part) as [c|]; [|discriminate].
      apply conflict_error_bind. now apply IH.
Qed.

Lemma static_after_param_is_refused e method path pre lit rest hs x :
  splitClean path = (pre ++ lit :: rest)%list ->
  node_at e method (shape pre) = Some x -> paramNode x <> None ->
  is_param lit = false ->
  conflict_error (addRoute e method path hs).
Proof.
  intros Hsplit Hx Hpn Hlit. unfold node_at in Hx. unfold addRoute. rewrite Hsplit.
  destruct (trees e !! method) as [r|]; [|discriminate]. simpl default.
  apply conflict_error_bind.
  eapply static_at_param_position_conflicts; eauto.
Qed.

(** [/user/:id] then [/user/profile]: the second registration panics with
    the conflict message. *)
Lemma param_then_static_conflicts (h1 h2 : HandlersChain) :
  exists e1, addRoute New "GET" "/user/:id" h1 = Ok e1 /\
             conflict_error (addRoute e1 "GET" "/user/profile" h2).
Proof. eexists. split; vm_compute; reflexivity. Qed.

(** C2, at the input where the code departs from it.  [/user/profile] then
    [/user/:id]: both registrations go through, and the node of [user] ends
    with the static child [profile] and a parameter child side by side.
    The test of the parameter branch looks the token [":id"] up among the
    static keys, where no token ever is ([param_token_is_no_key]). *)
Theorem static_then_param_is_accepted (h1 h2 : HandlersChain) :
  exists e1 e2 user,
    addRoute New "GET" "/user/profile" h1 = Ok e1 /\
    addRoute e1 "GET" "/user/:id" h2 = Ok e2 /\
    node_at e2 "GET" [Some "user"] = Some user /\
    is_Some (children user !! "profile") /\ is_Some (paramNode user).
Proof.
  do 3 eexists. split; [vm_compute; reflexivity|].
  split; [vm_compute; reflexivity|].
  split; [vm_compute; reflexivity|].
  split; vm_compute; eexists; reflexivity.
Qed.

(** In a tree built by [addRoute] the parameter branch never reports a
    conflict: a parameter segment is accepted at every node, whatever static
    children the node has. *)
Lemma param_branch_never_conflicts method path part parts hs n :
  static_keys_ok n -> is_param part = true ->
  exists next,
    (paramNode n = Some next \/ paramNode n = None /\ is_new next) /\
    addParts method path (part :: parts) hs n
    = (call next' <- addParts method path parts hs next;
       Ok (set_paramNode n next')).
Proof.
  intros Hok Hp. simpl. unfold is_param in Hp. rewrite Hp.
  rewrite (param_token_is_no_key _ _ Hok Hp).
  destruct (paramNode n) as [pn|] eqn:Hpn.
  - exists pn. split; [now left|reflexivity].
  - destruct (is_param_from_1 part Hp) as [name ->]. simpl.
    eexists. split; [right; split; [reflexivity|]|reflexivity]. repeat split.
Qed.

(** After [/user/profile] and [/user/:id], registering [/user/profile]
    again is refused with the conflict message, not the duplicate one. *)
Lemma duplicate_reported_as_conflict (h1 h2 h3 : HandlersChain) :
  exists e1 e2,
    addRoute New "GET" "/user/profile" h1 = Ok e1 /\
    addRoute e1 "GET" "/user/:id" h2 = Ok e2 /\
    conflict_error (addRoute e2 "GET" "/user/profile" h3).
Proof. do 2 eexists. repeat split; vm_compute; reflexivity. Qed.

(** ** Parameter bindings *)

Lemma Split_no_slash s : has_slash s = false -> Strings.Split s Strings.slash = [s].
Proof.
  induction s as [|a r IH]; simpl; [reflexivity|].
  destruct (Ascii.eqb a Strings.slash); simpl; [discriminate|].
  intros H. now rewrite (IH H).
Qed.

Lemma segments_of_single s :
  s <> "" -> has_slash s = false -> segments_of s = [s].
Proof.
  intros Hne Hs. unfold segments_of. rewrite (Split_no_slash _ Hs).
  destruct s; [congruence|reflexivity].
Qed.

Lemma splitClean_message x y :
  x <> "" -> y <> "" -> has_slash x = false -> has_slash y = false ->
  splitClean ("/message/" +:+ x +:+ "/" +:+ y) = ["message"; x; y].
Proof.
  intros Hx Hy Hsx Hsy. rewrite splitClean_segments.
  change ("/message/" +:+ x +:+ "/" +:+ y)
    with (String Strings.slash ("message" +:+ String Strings.slash
                                  (x +:+ String Strings.slash y))).
  rewrite segments_of_slash, !segments_of_app.
  now rewrite (segments_of_single x), (segments_of_single y).
Qed.

Lemma addParts_message method path hs :
  addParts method path ["message"; ":a"; ":b"] hs rootNode
  = Ok (mkNode "" false None
          (<["message" :=
               mkNode "message" false None ∅
                 (Some (mkNode "a" true None ∅
                          (Some (mkNode "b" true hs ∅ None))))]> ∅)
          None).
Proof. reflexivity. Qed.

(** C5.  With the route [/message/:a/:b] registered, the request path
    [/message/x/y] resolves to the handlers of the route with [a] bound to
    ["x"] and [b] to ["y"]; and so for any two segments in the place of
    ["x"] and ["y"]: each name is bound to the text of its segment. *)
Theorem message_params_bound (method : string) (hs : HandlersChain) (x y : string) :
  x <> "" -> y <> "" -> has_slash x = false -> has_slash y = false ->
  exists e,
    addRoute New method "/message/:a/:b" hs = Ok e /\
    findRoute e method ("/message/" +:+ x +:+ "/" +:+ y)
    = (hs, Some (<["b" := y]> (<["a" := x]> ∅))).
Proof.
  intros Hx Hy Hsx Hsy. eexists. split.
  - unfold addRoute. change (trees New) with (∅ : gmap string node).
    rewrite lookup_empty. cbn [default].
    change (splitClean "/message/:a/:b") with ["message"; ":a"; ":b"].
    rewrite addParts_message. reflexivity.
  - unfold findRoute. cbn [trees]. rewrite lookup_insert_eq.
    rewrite (splitClean_message x y Hx Hy Hsx Hsy).
    cbn [findParts children]. rewrite lookup_insert_eq.
    cbn [children paramNode]. rewrite lookup_empty.
    cbn [children paramNode segment default]. rewrite lookup_empty.
    reflexivity.
Qed.

Lemma message_params_bound_witness :
  exists e,
    addRoute New "GET" "/message/:a/:b" (Some [echo]) = Ok e /\
    findRoute e "GET" "/message/x/y"
    = (Some [echo], Some (<["b" := "y"]> (<["a" := "x"]> ∅))).
Proof.
  apply (message_params_bound "GET" (Some [echo]) "x" "y");
    solve [discriminate | reflexivity].
Defined.

(** ** The name of a parameter child *)

Lemma descend_app n sh1 sh2 :
  descend n (sh1 ++ sh2)
  = match descend n sh1 with Some x => descend x sh2 | None => None end.
Proof.
  revert n. induction sh1 as [|k sh1 IH]; intros n; simpl; [reflexivity|].
  destruct (child_at n k); [apply IH|reflexivity].
Qed.

Lemma node_at_snoc e m sh k :
  node_at e m (sh ++ [k])
  = match node_at e m sh with Some x => child_at x k | None => None end.
Proof.
  unfold node_at. destruct (trees e !! m) as [r|]; [|reflexivity].
  rewrite descend_app. destruct (descend r sh) as [x|]; [|reflexivity].
  simpl. now destruct (child_at x k).
Qed.

(** C10.  A registration leaves the parameter child of every node in
    place, with the name it was created with.  So [/a/:x/one] followed by
    [/a/:y/two] registers both routes on the one parameter node named [x],
    and a request for either route has its segment bound to [x], and
    nothing bound to [y]. *)
Theorem param_name_is_first_registered :
  (forall (e e' : Engine) (method path : string) (hs : HandlersChain)
          (m : string) (sh : list (option string)) (n pn : node),
      addRoute e method path hs = Ok e' ->
      node_at e m sh = Some n -> paramNode n = Some pn ->
      exists n' pn',
        node_at e' m sh = Some n' /\ paramNode n' = Some pn' /\
        segment pn' = segment pn) /\
  (forall (h1 h2 : HandlersChain),
      exists e1 e2,
        addRoute New "GET" "/a/:x/one" h1 = Ok e1 /\
        addRoute e1 "GET" "/a/:y/two" h2 = Ok e2 /\
        findRoute e2 "GET" "/a/v/one" = (h1, Some {["x" := "v"]}) /\
        findRoute e2 "GET" "/a/v/two" = (h2, Some {["x" := "v"]})).
Proof.
  split.
  - intros e e' method path hs m sh n pn Hadd Hn Hpn.
    assert (node_at e m (sh ++ [None]) = Some pn) as Hat
      by (rewrite node_at_snoc, Hn; exact Hpn).
    destruct (addRoute_preserves _ _ _ _ _ _ _ _ Hadd Hn) as (n' & Hn' & _).
    destruct (addRoute_preserves _ _ _ _ _ _ _ _ Hadd Hat) as (pn' & Hpn' & Hseg & _).
    rewrite node_at_snoc, Hn' in Hpn'. simpl in Hpn'.
    exists n', pn'. auto.
  - intros h1 h2. do 2 eexists.
    split; [vm_compute; reflexivity|].
    split; [vm_compute; reflexivity|].
    split; vm_compute; reflexivity.
Qed.

Lemma param_name_is_first_registered_witness :
  exists n' pn',
    node_at (engine_of (addRoute demo_engine "GET" "/message/:other/:p/z" (Some [pong])))
            "GET" [Some "message"] = Some n' /\
    paramNode n' = Some pn' /\ segment pn' = "param".
Proof.
  destruct param_name_is_first_registered as [Hgen _].
  pose (n := node_of (node_at demo_engine "GET" [Some "message"])).
  pose (pn := node_of (paramNode n)).
  assert (addRoute demo_engine "GET" "/message/:other/:p/z" (Some [pong])
          = Ok (engine_of (addRoute demo_engine "GET" "/message/:other/:p/z"
                             (Some [pong])))) as Hadd
    by (vm_compute; reflexivity).
  assert (node_at demo_engine "GET" [Some "message"] = Some n) as Hn
    by (vm_compute; reflexivity).
  assert (paramNode n = Some pn) as Hpn by (vm_compute; reflexivity).
  destruct (Hgen _ _ _ _ _ _ _ _ _ Hadd Hn Hpn) as (n' & pn' & H1 & H2 & H3).
  exists n', pn'. split; [exact H1|]. split; [exact H2|].
  rewrite H3. reflexivity.
Defined.

(** ** Paths with the same segments *)

Lemma addParts_messages method path method' path' parts hs n n' :
  addParts method path parts hs n = Ok n' ->
  addParts method' path' parts hs n = Ok n'.
Proof.
  revert n n'. induction parts as [|part parts IH]; intros n n'; simpl.
  - destruct (node_handlers n); [discriminate|auto].
  - destruct (Strings.HasPrefix part ":").
    + destruct (children n !! part); [discriminate|].
      destruct (match paramNode n with
                | Some pn => Ok pn
                | None => call name <- from_1 part; Ok (mkNode name true None ∅ None)
                end) as [next| |]; simpl; try discriminate.
      destruct (addParts method path parts hs next) as [next'| |] eqn:Hrec;
        simpl; try discriminate.
      now rewrite (IH _ _ Hrec).
    + destruct (paramNode n); [discriminate|].
      destruct (addParts method path parts hs _) as [next'| |] eqn:Hrec;
        simpl; try discriminate.
      now rewrite (IH _ _ Hrec).
Qed.

(** C8.  [splitClean] gives the non-empty pieces between the slashes of the
    path: slashes in front and at the end add nothing, neither does a
    second slash next to a first, and a path of slashes only (the empty
    path among them) has no segment; no segment is empty or holds a slash.
    Two paths with the same segments resolve to the same result and
    register into the same tree; [/a//b/] and [/a/b/] are such paths. *)
Theorem splitClean_normalizes :
  (forall p, splitClean p = segments_of p) /\
  (forall p, splitClean ("/" +:+ p) = splitClean p) /\
  (forall p, splitClean (p +:+ "/") = splitClean p) /\
  (forall a b, splitClean (a +:+ "//" +:+ b) = splitClean (a +:+ "/" +:+ b)) /\
  (forall k, splitClean (slashes k) = []) /\
  (forall p s, In s (splitClean p) -> s <> "" /\ has_slash s = false) /\
  (forall e method p q,
      splitClean p = splitClean q ->
      findRoute e method p = findRoute e method q /\
      ServeHTTP e method p = ServeHTTP e method q /\
      forall hs e', addRoute e method p hs = Ok e' ->
                    exists e'', addRoute e method q hs = Ok e'' /\
                                trees e'' = trees e') /\
  splitClean "/a//b/" = ["a"; "b"] /\ splitClean "/a/b/" = ["a"; "b"].
Proof.
  split; [exact splitClean_segments|].
  split; [intros p; rewrite !splitClean_segments; reflexivity|].
  split.
  { intros p. rewrite !splitClean_segments.
    change (p +:+ "/") with (p +:+ String Strings.slash "").
    rewrite segments_of_app. apply app_nil_r. }
  split.
  { intros a b. rewrite !splitClean_segments.
    change (a +:+ "//" +:+ b) with (a +:+ String Strings.slash (String Strings.slash b)).
    change (a +:+ "/" +:+ b) with (a +:+ String Strings.slash b).
    now rewrite !segments_of_app, segments_of_slash. }
  split; [intros k; rewrite splitClean_segments; apply segments_of_slashes|].
  split.
  { intros p s. rewrite splitClean_segments. unfold segments_of.
    rewrite List.filter_In. intros [Hin Hne]. split.
    - destruct s; [discriminate|discriminate].
    - revert s Hin Hne. generalize p. clear p.
      induction p as [|a r IH]; simpl; intros s Hin Hne.
      + destruct Hin as [<-|[]]. reflexivity.
      + destruct (Ascii.eqb a Strings.slash) eqn:Ha.
        * destruct Hin as [<-|Hin]; [reflexivity|]. now apply IH.
        * pose proof (Split_not_nil r Strings.slash) as Hnn.
          destruct (Strings.Split r Strings.slash) as [|x xs] eqn:Hs; [congruence|].
          destruct Hin as [<-|Hin].
          -- simpl. rewrite Ha. simpl.
             destruct x as [|c x']; [reflexivity|].
             apply IH; [now left|reflexivity].
          -- apply IH; [now right|assumption]. }
  split.
  { intros e method p q Hpq. split; [|split].
    - unfold findRoute. now rewrite Hpq.
    - unfold ServeHTTP, findRoute. now rewrite Hpq.
    - intros hs e' H. apply addRoute_inv in H as (c & Hc & Ht & _).
      unfold addRoute. rewrite <- Hpq.
      rewrite (addParts_messages _ _ method q _ _ _ _ Hc). simpl.
      eexists. split; [reflexivity|]. simpl. now rewrite Ht. }
  split; reflexivity.
Qed.

Lemma splitClean_normalizes_witness :
  findRoute demo_engine "GET" "//message///abc/" = findRoute demo_engine "GET" "/message/abc" /\
  fst (findRoute demo_engine "GET" "//message///abc/") = Some [echo].
Proof.
  destruct splitClean_normalizes as (_ & _ & _ & _ & _ & _ & Hsame & _).
  destruct (Hsame demo_engine "GET" "//message///abc/" "/message/abc") as [Hf _];
    [reflexivity|].
  split; [exact Hf|reflexivity].
Defined.

(** ** Dispatch: Abort *)

Section AbortFacts.

Implicit Types (c : Context) (h : HandlerFunc)
               (next : Context -> result Context).

Lemma own_effect_frame h c :
  handlers (own_effect h c) = handlers c /\
  index (own_effect h c) = index c /\
  invoked (own_effect h c) = invoked c /\
  Params (own_effect h c) = Params c.
Proof.
  revert c. induction h as [|h IH|h IH|code msg h IH|key value h IH|cond a IHa b IHb];
    intros c; simpl; auto.
  - destruct (IH (Abort c)) as (A & B & C & D). auto.
  - destruct (IH (String_ c code msg)) as (A & B & C & D). auto.
  - destruct (IH (Set_ c key value)) as (A & B & C & D). auto.
  - destruct (cond (view c)); auto.
Qed.

(** Once the flag is set, a body runs to its end without any effect of
    its calls of [Next], and the flag stays set. *)
Lemma run_stopped next h c :
  (forall c0, stopped c0 = true -> next c0 = Ok c0) ->
  stopped c = true ->
  run next h c = Ok (own_effect h c) /\ stopped (own_effect h c) = true.
Proof.
  intros Hnext. revert c.
  induction h as [|h IH|h IH|code msg h IH|key value h IH|cond a IHa b IHb];
    intros c Hs; simpl; auto.
  - rewrite (Hnext c Hs). simpl. auto.
  - destruct (cond (view c)); auto.
Qed.

Lemma run_aborts_first next h c :
  (forall c0, stopped c0 = true -> next c0 = Ok c0) ->
  aborts_first h = true ->
  run next h c = Ok (own_effect h c) /\ stopped (own_effect h c) = true.
Proof.
  intros Hnext. revert c.
  induction h as [|h IH|h IH|code msg h IH|key value h IH|cond a IHa b IHb];
    intros c Hab; simpl in *; try discriminate; auto.
  - apply run_stopped; auto.
  - apply andb_true_iff in Hab as [Ha Hb]. destruct (cond (view c)); auto.
Qed.

Lemma Next_stopped fuel c : stopped c = true -> Next (S fuel) c = Ok c.
Proof. intros Hs. simpl. now rewrite Hs. Qed.

End AbortFacts.


(** ** Dispatch: chains without Abort *)

Section RunAllFacts.

Variable hs : list HandlerFunc.
Hypothesis no_abort : Forall (fun h => never_aborts h = true) hs.

Local Abbreviation n := (Z.of_nat (length hs)).

Local Ltac conj_all :=
  repeat match goal with |- _ /\ _ => split end;
  try assumption; try reflexivity.

Lemma wrap_int_small z : - 2 ^ 63 <= z <= max_int -> wrap_int z = z.
Proof.
  unfold wrap_int, max_int. intros Hz.
  rewrite Z.mod_small by lia. lia.
Qed.

Lemma positions_snoc k : positions (S k) = (positions k ++ [Z.of_nat k])%list.
Proof. unfold positions. now rewrite seq_S, map_app. Qed.

Lemma pending_nonneg i : 0 <= pending hs i.
Proof. unfold pending. lia. Qed.

Lemma pending_step i h :
  -1 <= i -> hs !! Z.to_nat (i + 1) = Some h ->
  pending hs i = 1 + Z.of_nat (calls_of_Next h) + pending hs (i + 1).
Proof.
  intros Hi Hh. unfold pending.
  rewrite (drop_S _ _ _ Hh).
  replace (Z.to_nat (i + 1 + 1)) with (S (Z.to_nat (i + 1))) by lia.
  unfold calls_bound. simpl. lia.
Qed.

Lemma pending_end i : n <= i + 1 -> pending hs i = 0.
Proof.
  intros Hi. unfold pending. rewrite drop_ge by lia. reflexivity.
Qed.

Lemma in_order_String_ c code msg : in_order hs c -> in_order hs (String_ c code msg).
Proof. intros H. exact H. Qed.

Lemma in_order_Set_ c key value : in_order hs c -> in_order hs (Set_ c key value).
Proof. intros H. exact H. Qed.

(** A body without [Abort], run in a state in order, with a [next] that
    runs the rest. *)
Lemma run_in_order lo next :
  runs_the_rest hs lo next ->
  forall h c,
    never_aborts h = true -> in_order hs c -> lo <= index c ->
    potential hs c + Z.of_nat (calls_of_Next h) <= max_int ->
    exists c', run next h c = Ok c' /\ in_order hs c' /\
               index c <= index c' /\
               potential hs c' <= potential hs c + Z.of_nat (calls_of_Next h) /\
               Params c' = Params c.
Proof.
  intros Hnext.
  induction h as [|h IH|h IH|code msg h IH|key value h IH|cond a IHa b IHb];
    intros c Hna Hord Hlo Hpot; cbn [run never_aborts calls_of_Next] in *.
  - exists c. conj_all; lia.
  - destruct (Hnext c Hord Hlo) as (c1 & -> & Hord1 & _ & Hmono & Hpot1 & Hpar1);
      [lia|].
    cbn [bind].
    destruct (IH c1 Hna Hord1) as (c' & Hrun & Hord' & Hmono' & Hpot' & Hpar');
      [lia|lia|].
    exists c'. conj_all; try lia. congruence.
  - discriminate.
  - destruct (IH (String_ c code msg) Hna (in_order_String_ _ _ _ Hord) Hlo Hpot)
      as (c' & Hrun & Hord' & Hmono' & Hpot' & Hpar').
    exists c'. conj_all.
  - destruct (IH (Set_ c key value) Hna (in_order_Set_ _ _ _ Hord) Hlo Hpot)
      as (c' & Hrun & Hord' & Hmono' & Hpot' & Hpar').
    exists c'. conj_all.
  - apply andb_true_iff in Hna as [Hna Hnb].
    destruct (cond (view c)).
    + destruct (IHa c Hna Hord Hlo) as (c' & Hrun & Hord' & Hmono' & Hpot' & Hpar');
        [lia|].
      exists c'. conj_all; lia.
    + destruct (IHb c Hnb Hord Hlo) as (c' & Hrun & Hord' & Hmono' & Hpot' & Hpar');
        [lia|].
      exists c'. conj_all; lia.
Qed.

Lemma Next_unfold fuel c :
  Next (S fuel) c =
  if stopped c then Ok c
  else
    let c1 := set_index c (wrap_int (index c + 1)) in
    if index c1 <? Z.of_nat (length (elems (handlers c1))) then
      match handler_at (handlers c1) (index c1) with
      | None => Panic "runtime error: index out of range"
      | Some h =>
          call c' <- run (Next fuel) h (record_invocation c1);
          Next fuel c'
      end
    else Ok c1.
Proof. reflexivity. Qed.

(** [Next] with [S fuel] runs the rest from any index of
    [length hs - fuel] at least. *)
Lemma Next_runs_the_rest fuel : runs_the_rest hs (n - Z.of_nat fuel) (Next (S fuel)).
Proof.
  induction fuel as [|fuel IH]; intros c Hord Hlo Hpot;
    pose proof Hord as (Hhs & Hst & Hidx & Hinv);
    pose proof (pending_nonneg (index c)) as Hpend;
    unfold potential in Hpot;
    rewrite Next_unfold, Hst; cbn zeta;
    rewrite (wrap_int_small (index c + 1)) by (unfold max_int in *; lia);
    cbn [index set_index handlers]; rewrite Hhs.
  - (* no fuel for a handler: the index is past the chain *)
    destruct (Z.ltb_spec (index c + 1) n) as [Hlt|Hge]; [lia|].
    eexists. split; [reflexivity|].
    unfold in_order, potential. cbn [index set_index handlers stopped invoked Params].
    rewrite !pending_end by lia.
    conj_all; try lia.
    rewrite Hinv. do 2 f_equal. lia.
  - destruct (Z.ltb_spec (index c + 1) n) as [Hlt|Hge].
    + (* the handler at the next position is run, then the rest *)
      unfold handler_at. cbn [handlers]. rewrite Hhs.
      destruct (Z.ltb_spec (index c + 1) 0) as [Hneg|_]; [lia|].
      destruct (lookup_lt_is_Some_2 hs (Z.to_nat (index c + 1))) as [h Hh]; [lia|].
      rewrite Hh.
      assert (never_aborts h = true) as Hnah.
      { rewrite Forall_forall in no_abort. apply no_abort.
        eapply list_elem_of_lookup_2; eauto. }
      set (c2 := record_invocation (set_index c (index c + 1))).
      assert (in_order hs c2) as Hord2.
      { unfold in_order, c2. cbn [index set_index handlers stopped invoked record_invocation].
        conj_all; try lia.
        rewrite Hinv.
        replace (Z.to_nat (Z.min (index c + 1 + 1) n))
          with (S (Z.to_nat (Z.min (index c + 1) n))) by lia.
        rewrite positions_snoc. do 2 f_equal. lia. }
      assert (potential hs c2 + Z.of_nat (calls_of_Next h) = potential hs c) as Hpot2.
      { unfold potential, c2. cbn [index set_index record_invocation].
        rewrite (pending_step (index c) h Hidx Hh). lia. }
      destruct (run_in_order _ _ IH h c2 Hnah Hord2)
        as (c3 & -> & Hord3 & Hmono3 & Hpot3 & Hpar3).
      { unfold c2. cbn [index set_index record_invocation]. lia. }
      { unfold potential in *. lia. }
      cbn [bind].
      destruct (IH c3 Hord3) as (c' & Hrun & Hord' & Hfin & Hmono' & Hpot' & Hpar').
      { unfold c2 in Hmono3. cbn [index set_index record_invocation] in Hmono3. lia. }
      { unfold potential in *. lia. }
      exists c'. split; [exact Hrun|].
      unfold c2 in Hmono3, Hpar3.
      cbn [index set_index record_invocation Params] in Hmono3, Hpar3.
      unfold potential in *.
      conj_all; try lia. congruence.
    + eexists. split; [reflexivity|].
      unfold in_order, potential. cbn [index set_index handlers stopped invoked Params].
      rewrite !pending_end by lia.
      conj_all; try lia.
      rewrite Hinv. do 2 f_equal. lia.
Qed.

End RunAllFacts.

Lemma invoked_handlers_positions (chain : HandlersChain) :
  map (handler_at chain) (positions (length (elems chain))) = map Some (elems chain).
Proof.
  apply list_eq. intros i. unfold positions.
  rewrite !list_lookup_fmap.
  destruct (decide (i < length (elems chain))%nat) as [Hlt|Hge].
  - rewrite lookup_seq_lt by assumption. simpl.
    unfold handler_at. destruct (Z.ltb_spec (Z.of_nat i) 0) as [Hneg|_]; [lia|].
    rewrite Nat2Z.id.
    destruct (lookup_lt_is_Some_2 (elems chain) i Hlt) as [h ->]. reflexivity.
  - rewrite lookup_seq_ge by lia.
    rewrite (lookup_ge_None_2 (elems chain) i) by lia. reflexivity.
Qed.

Lemma NoDup_positions k : NoDup (positions k).
Proof.
  unfold positions. apply NoDup_fmap_2; [intros a b; lia|apply NoDup_seq].
Qed.

(** C4.  A chain is the middleware of the group followed by the handlers
    of the route ([joinHandler]).  When no handler of the chain calls
    [Abort], the one call of [Next] that [ServeHTTP] makes returns after it
    has invoked the handler at every position once, in the order of the
    chain, whatever calls of [Next] the bodies make themselves.  The bound
    keeps the index, a Go [int], from overflowing: the chain and its bodies
    hold fewer than 2^63 calls of [Next]. *)
Theorem chain_without_abort_runs_in_order (r : Route) (own : HandlersChain)
    (params : option (gmap string string)) :
  Forall (fun h => never_aborts h = true) (elems (joinHandler r own)) ->
  Z.of_nat (calls_bound (elems (joinHandler r own))) <= max_int ->
  exists c,
    dispatch (joinHandler r own) params = Ok c /\
    invoked c = positions (length (elems (joinHandler r own))) /\
    invoked_handlers c = map Some (elems (Handler r) ++ elems own) /\
    NoDup (invoked c) /\
    stopped c = false.
Proof.
  intros Hna Hbound.
  set (chain := joinHandler r own) in *.
  set (hs := elems chain) in *.
  set (c0 := startContext chain params).
  assert (in_order hs c0) as Hord0.
  { unfold in_order, c0. cbn [startContext handlers stopped index invoked].
    split; [reflexivity|]. split; [reflexivity|]. split; [lia|].
    replace (Z.to_nat (Z.min (-1 + 1) (Z.of_nat (length hs)))) with O by lia.
    reflexivity. }
  destruct (Next_runs_the_rest hs Hna (S (length hs)) c0 Hord0)
    as (c & Hrun & Hord & Hfin & _ & _ & _).
  { unfold c0. cbn [startContext index]. lia. }
  { unfold potential, pending, c0. cbn [startContext index].
    change (Z.to_nat (-1 + 1)) with O. rewrite drop_0. lia. }
  exists c. split; [exact Hrun|].
  destruct Hord as (Hhs & Hst & Hidx & Hinv).
  assert (invoked c = positions (length hs)) as Hall.
  { rewrite Hinv. f_equal. lia. }
  split; [exact Hall|]. split; [|split; [rewrite Hall; apply NoDup_positions|exact Hst]].
  unfold invoked_handlers. rewrite Hall, <- Hhs.
  rewrite invoked_handlers_positions, Hhs. reflexivity.
Qed.

Lemma chain_without_abort_runs_in_order_witness :
  exists c,
    dispatch (Some [logger; pong; echo]) None = Ok c /\
    invoked c = [0; 1; 2] /\
    Writer c = [WriteHeader 200; WriteString "pong";
                WriteHeader 200; WriteString "ok";
                WriteHeader 0; WriteString "logged"].
Proof.
  destruct (chain_without_abort_runs_in_order
              (mkRoute "/api" (Some [logger]) false) (Some [pong; echo]) None)
    as (c & Hd & Hi & _).
  - repeat constructor.
  - vm_compute. discriminate.
  - exists c. split; [exact Hd|]. split; [exact Hi|].
    assert (dispatch (joinHandler (mkRoute "/api" (Some [logger]) false)
                                  (Some [pong; echo])) None
            = Ok (ctx_of (dispatch (Some [logger; pong; echo]) None))) as Hc
      by (vm_compute; reflexivity).
    rewrite Hc in Hd. injection Hd as <-. vm_compute. reflexivity.
Defined.

(** ** Dispatch: Abort further down the chain *)

Section AbortAtFacts.

Variables (pre post : list HandlerFunc) (h : HandlerFunc).

Local Abbreviation hs := (pre ++ h :: post)%list.
Local Abbreviation k := (length pre).

Hypothesis pre_no_abort : Forall (fun h0 => never_aborts h0 = true) pre.
Hypothesis h_aborts : aborts_first h = true.
Hypothesis short : Z.of_nat (length hs) <= max_int.

(** A body without [Abort] keeps the state, keeps the flag once it is set,
    and leaves the index alone as long as the flag is not set. *)
Lemma run_up_to_abort lo next :
  runs_to_abort hs k lo next ->
  forall h0 c,
    never_aborts h0 = true -> up_to_abort hs k c ->
    (stopped c = false -> lo <= index c) ->
    exists c', run next h0 c = Ok c' /\ up_to_abort hs k c' /\
               (stopped c = true -> stopped c' = true) /\
               (stopped c' = false -> index c' = index c).
Proof.
  intros Hnext.
  induction h0 as [|h0 IH|h0 IH|code msg h0 IH|key value h0 IH|cond a IHa b IHb];
    intros c Hna Hup Hlo; cbn [run never_aborts] in *.
  - exists c. auto.
  - destruct (Hnext c Hup Hlo) as (c1 & -> & Hup1 & Hst1). cbn [bind].
    destruct (IH c1 Hna Hup1) as (c' & Hrun & Hup' & Hkeep & _); [congruence|].
    exists c'. split; [exact Hrun|]. split; [exact Hup'|].
    split; [auto|]. intros Hs. rewrite (Hkeep Hst1) in Hs. discriminate.
  - discriminate.
  - apply (IH (String_ c code msg) Hna Hup Hlo).
  - apply (IH (Set_ c key value) Hna Hup Hlo).
  - apply andb_true_iff in Hna as [Hna Hnb].
    destruct (cond (view c)); [apply IHa|apply IHb]; assumption.
Qed.

Lemma Next_runs_to_abort fuel :
  runs_to_abort hs k (Z.of_nat (length hs) - Z.of_nat fuel) (Next (S fuel)).
Proof.
  assert (Z.of_nat k < Z.of_nat (length hs)) as Hk
    by (rewrite length_app; simpl; lia).
  induction fuel as [|fuel IH]; intros c Hup Hlo; rewrite Next_unfold;
    pose proof Hup as (Hhs & Hidx & [(Hst & Hik & Hinv)|(Hst & Hinv)]);
    rewrite Hst; try (exists c; auto; fail); specialize (Hlo Hst).
  - lia.
  - cbn zeta. rewrite (wrap_int_small (index c + 1)) by (unfold max_int in *; lia).
    cbn [index set_index handlers]. rewrite Hhs.
    destruct (Z.ltb_spec (index c + 1) (Z.of_nat (length hs))) as [_|Hge]; [|lia].
    unfold handler_at. cbn [handlers]. rewrite Hhs.
    destruct (Z.ltb_spec (index c + 1) 0) as [Hneg|_]; [lia|].
    set (c2 := record_invocation (set_index c (index c + 1))).
    assert (invoked c2 = positions (S (Z.to_nat (index c + 1)))) as Hinv2.
    { unfold c2. cbn [invoked record_invocation set_index index].
      rewrite Hinv, positions_snoc. do 2 f_equal. lia. }
    destruct (Z.eq_dec (index c + 1) (Z.of_nat k)) as [Heq|Hne].
    + (* the handler at [k]: it aborts, and the rest is skipped *)
      rewrite (list_lookup_middle pre post h (Z.to_nat (index c + 1))) by lia.
      destruct (run_aborts_first (Next (S fuel)) h c2 (Next_stopped fuel) h_aborts)
        as [-> Hst3].
      cbn [bind]. rewrite Next_stopped by exact Hst3.
      destruct (own_effect_frame h c2) as (Hh3 & Hi3 & Hinv3 & _).
      eexists. split; [reflexivity|]. split; [|exact Hst3].
      split; [rewrite Hh3; exact Hhs|]. split; [rewrite Hi3; simpl; lia|].
      right. split; [exact Hst3|]. rewrite Hinv3, Hinv2. f_equal. lia.
    + (* a handler before [k]: it runs, then the rest *)
      assert (Z.to_nat (index c + 1) < k)%nat as Hlt by lia.
      destruct (lookup_lt_is_Some_2 pre _ Hlt) as [h0 Hh0].
      rewrite (lookup_app_l_Some _ _ _ _ Hh0).
      assert (never_aborts h0 = true) as Hna.
      { rewrite Forall_forall in pre_no_abort. apply pre_no_abort.
        eapply list_elem_of_lookup_2; eauto. }
      assert (up_to_abort hs k c2) as Hup2.
      { split; [exact Hhs|]. split; [unfold c2; simpl; lia|].
        left. split; [exact Hst|]. split; [unfold c2; simpl; lia|].
        rewrite Hinv2. unfold c2. simpl. f_equal. lia. }
      destruct (run_up_to_abort _ _ IH h0 c2 Hna Hup2)
        as (c3 & -> & Hup3 & _ & Hsame).
      { intros _. unfold c2. simpl. lia. }
      cbn [bind]. apply IH; [exact Hup3|].
      intros Hs3. rewrite (Hsame Hs3). unfold c2. simpl. lia.
Qed.

(** The handlers before the one that aborts, and that one, are invoked, in
    order; those after it are not. *)
Lemma dispatch_runs_to_abort params :
  exists c, dispatch (Some hs) params = Ok c /\
            invoked c = positions (S k) /\ stopped c = true.
Proof.
  unfold dispatch.
  destruct (Next_runs_to_abort (S (length hs)) (startContext (Some hs) params))
    as (c & Hc & Hup & Hst).
  - split; [reflexivity|]. split; [simpl; lia|].
    left. split; [reflexivity|]. split; [simpl; lia|reflexivity].
  - intros _. simpl. lia.
  - exists c. split; [exact Hc|]. split; [|exact Hst].
    destruct Hup as (_ & _ & [(Hs & _)|(_ & Hinv)]); [congruence|exact Hinv].
Qed.

End AbortAtFacts.

(** C3.  In a chain of three handlers whose first handler calls [Abort]
    before any call of [Next], the dispatch invokes the first handler and no
    other.  The first handler runs its whole body, the statements after
    [Abort] included: the Context at the end is the one its own statements
    leave, and the flag is set.  At any place in a chain, the handler that
    aborts and those before it are invoked, those after it are not. *)
Theorem abort_skips_later_handlers :
  (forall (h1 h2 h3 : HandlerFunc) (params : option (gmap string string)),
      aborts_first h1 = true ->
      exists c,
        dispatch (Some [h1; h2; h3]) params = Ok c /\
        invoked c = [0] /\
        invoked_handlers c = [Some h1] /\
        c = own_effect h1 (entryContext (Some [h1; h2; h3]) params) /\
        stopped c = true) /\
  (forall (pre post : list HandlerFunc) (h : HandlerFunc)
          (params : option (gmap string string)),
      Forall (fun h0 => never_aborts h0 = true) pre ->
      aborts_first h = true ->
      Z.of_nat (length (pre ++ h :: post)%list) <= max_int ->
      exists c,
        dispatch (Some (pre ++ h :: post)%list) params = Ok c /\
        invoked c = positions (S (length pre)) /\
        stopped c = true).
Proof.
  split; [|intros pre post h params Hna Hab Hlen;
           apply (dispatch_runs_to_abort pre post h); assumption].
  intros h1 h2 h3 params Hab.
  set (c0 := entryContext (Some [h1; h2; h3]) params).
  destruct (run_aborts_first (Next 4) h1 c0 (Next_stopped 3) Hab) as [Hrun Hst].
  exists (own_effect h1 c0).
  destruct (own_effect_frame h1 c0) as (Hh & _ & Hinv & _).
  assert (dispatch (Some [h1; h2; h3]) params = Ok (own_effect h1 c0)) as Hd.
  { unfold dispatch. change (2 + length (elems (Some [h1; h2; h3])))%nat with 5%nat.
    change (Next 5 (startContext (Some [h1; h2; h3]) params))
      with (call c' <- run (Next 4) h1 c0; Next 4 c').
    rewrite Hrun. cbn [bind]. now apply Next_stopped. }
  split; [exact Hd|]. split; [now rewrite Hinv|].
  split; [|auto]. unfold invoked_handlers. now rewrite Hh, Hinv.
Qed.

Lemma abort_skips_later_handlers_witness :
  (exists c,
      dispatch (Some [CallString 401 "no" (CallAbort (CallString 0 "after" Return));
                      pong; echo]) None = Ok c /\
      invoked c = [0] /\
      Writer c = [WriteHeader 401; WriteString "no";
                  WriteHeader 0; WriteString "after"]) /\
  (exists c,
      dispatch (Some [logger; CallAbort Return; echo]) None = Ok c /\
      invoked c = [0; 1] /\ stopped c = true).
Proof.
  destruct abort_skips_later_handlers as [Hfirst Hany]. split.
  - destruct (Hfirst (CallString 401 "no" (CallAbort (CallString 0 "after" Return)))
                     pong echo None eq_refl) as (c & Hd & Hi & _ & Hc & _).
    exists c. split; [exact Hd|]. split; [exact Hi|]. rewrite Hc. reflexivity.
  - destruct (Hany [logger] [echo] (CallAbort Return) None) as (c & Hd & Hi & Hs).
    + repeat constructor.
    + reflexivity.
    + vm_compute. discriminate.
    + exists c. split; [exact Hd|]. split; [exact Hi|exact Hs].
Defined.

(** ** Joining paths *)

Section CleanFacts.

Implicit Types (out pre : list ascii) (c : ascii) (rest : string).

Lemma nds_cons_not_slash c out :
  not_slash c -> no_double_slash out = true -> no_double_slash (c :: out) = true.
Proof.
  intros Hc Hout. simpl. rewrite Hout, andb_true_r.
  destruct out as [|b out]; [reflexivity|].
  destruct (Ascii.eqb_spec c "/"); [contradiction|reflexivity].
Qed.

Lemma nds_cons_slash out :
  head out <> Some "/"%char -> no_double_slash out = true ->
  no_double_slash ("/"%char :: out) = true.
Proof.
  intros Hh Hout. simpl. rewrite Hout, andb_true_r.
  destruct out as [|b out]; [reflexivity|].
  destruct (Ascii.eqb_spec b "/") as [->|_]; [|reflexivity].
  simpl in Hh. congruence.
Qed.

Lemma nds_tail c out : no_double_slash (c :: out) = true -> no_double_slash out = true.
Proof. simpl. intros H. now apply andb_true_iff in H as [_ H]. Qed.

Lemma nds_slash_head out :
  no_double_slash ("/"%char :: out) = true -> head out <> Some "/"%char.
Proof.
  destruct out as [|b out]; simpl; [discriminate|].
  intros H [= ->]. discriminate.
Qed.

Lemma nds_app_r pre out :
  no_double_slash (pre ++ out) = true -> no_double_slash out = true.
Proof.
  induction pre as [|a pre IH]; [auto|].
  intros H. apply IH. eapply nds_tail. exact H.
Qed.

Lemma nds_snoc out c :
  no_double_slash out = true ->
  (last out = Some "/"%char -> not_slash c) ->
  no_double_slash (out ++ [c]) = true.
Proof.
  induction out as [|a out IH]; intros Hout Hlast; [reflexivity|].
  pose proof (nds_tail _ _ Hout) as Htail.
  destruct out as [|b out].
  - simpl in *. rewrite andb_true_r.
    destruct (Ascii.eqb_spec a "/") as [->|_]; [|reflexivity].
    destruct (Ascii.eqb_spec c "/") as [->|_]; [|reflexivity].
    exfalso. now apply Hlast.
  - change ((a :: b :: out) ++ [c])%list with (a :: ((b :: out) ++ [c]))%list.
    simpl in Hout. apply andb_true_iff in Hout as [Hab _].
    simpl. simpl in IH. rewrite IH; auto. now rewrite Hab.
Qed.

Lemma last_rev_head out : last (rev out) = head out.
Proof. destruct out as [|a out]; [reflexivity|]. simpl. apply last_snoc. Qed.

Lemma nds_rev out : no_double_slash out = true -> no_double_slash (rev out) = true.
Proof.
  induction out as [|a out IH]; [auto|].
  intros H. simpl. apply nds_snoc.
  - apply IH. eapply nds_tail; eauto.
  - rewrite last_rev_head. intros Hh. intros ->.
    now apply nds_slash_head in H.
Qed.

(** [backtrack] drops the bytes of the last element, down to its slash
    or to [dotdot]. *)
Lemma backtrack_spec out dotdot :
  (dotdot < length out)%nat ->
  exists pre c,
    out = (pre ++ c :: Path.backtrack out dotdot)%list /\
    (dotdot <= length (Path.backtrack out dotdot))%nat /\
    (c = "/"%char \/ length (Path.backtrack out dotdot) = dotdot).
Proof.
  induction out as [|c out IH]; simpl; [lia|]. intros Hlt.
  destruct (Nat.ltb_spec dotdot (length out)) as [Hd|Hd]; simpl.
  - destruct (Ascii.eqb_spec c "/") as [->|Hc]; simpl.
    + exists [], "/"%char. split; [reflexivity|]. split; [lia|now left].
    + destruct (IH Hd) as (pre & c' & Hout & Hlen & Hend).
      exists (c :: pre), c'. split; [simpl; now rewrite <- Hout|]. auto.
  - exists [], c. split; [reflexivity|]. split; [lia|right; lia].
Qed.

Lemma head_length_1 out c : head out = Some c -> length out = 1%nat -> out = [c].
Proof. destruct out as [|a [|b out]]; simpl; try discriminate. now intros [= ->]. Qed.

Lemma backtrack_ok rooted out dotdot :
  buf_ok rooted out dotdot -> (dotdot < length out)%nat ->
  buf_ok rooted (Path.backtrack out dotdot) dotdot.
Proof.
  intros [(Hnds & Hlen & Hbase & Hroot) Hend] Hlt.
  destruct (backtrack_spec out dotdot Hlt) as (pre & c & Hout & Hlen' & Hstop).
  set (bt := Path.backtrack out dotdot) in *.
  assert (out = ((pre ++ [c]) ++ bt)%list) as Hout'
    by (rewrite <- app_assoc; exact Hout).
  split; [split; [|split; [|split]]|].
  - rewrite Hout' in Hnds. eapply nds_app_r; eauto.
  - exact Hlen'.
  - intros pre' s Hbt. apply (Hbase ((pre ++ [c]) ++ pre')%list s).
    rewrite Hout', Hbt. now rewrite app_assoc.
  - intros Hr. destruct (Hroot Hr) as [H1 Hlast]. split; [exact H1|].
    rewrite Hout', last_app in Hlast.
    destruct (last bt) eqn:Hb; [exact Hlast|].
    apply last_None in Hb. rewrite Hb in Hlen'. simpl in Hlen'. lia.
  - intros Hh. destruct Hstop as [->|Hstop].
    + exfalso. rewrite Hout in Hnds. apply nds_app_r in Hnds.
      now apply nds_slash_head in Hnds.
    + destruct (Hbase (pre ++ [c])%list bt Hout' Hstop Hh) as [Hr H1].
      split; [|exact Hr]. apply head_length_1; [exact Hh|lia].
Qed.

Lemma copy_element_spec rest out out2 rest' :
  Path.copy_element rest out = (out2, rest') ->
  exists pushed,
    out2 = (pushed ++ out)%list /\ Forall not_slash pushed /\
    (String.length rest' <= String.length rest)%nat /\
    (forall c r, rest = String c r -> not_slash c ->
                 pushed <> [] /\ (String.length rest' <= String.length r)%nat).
Proof.
  revert out. induction rest as [|c r IH]; intros out; simpl.
  - intros [= <- <-]. exists [].
    split; [reflexivity|]. split; [constructor|]. split; [apply Nat.le_refl|].
    discriminate.
  - destruct (Ascii.eqb_spec c "/") as [->|Hc].
    + intros [= <- <-]. exists [].
      split; [reflexivity|]. split; [constructor|]. split; [apply Nat.le_refl|].
      intros c1 r1 [= <- <-] Hns. now contradiction Hns.
    + intros H. destruct (IH _ H) as (pushed & -> & Hall & Hlen & _).
      exists (pushed ++ [c])%list. split; [now rewrite <- app_assoc|].
      split; [apply Forall_app; split; [exact Hall|repeat constructor; exact Hc]|].
      split; [simpl; lia|].
      intros c1 r1 [= <- <-] _. split; [|exact Hlen].
      destruct pushed; discriminate.
Qed.

Lemma pushed_ok rooted out dotdot pushed :
  buf_pre rooted out dotdot -> Forall not_slash pushed -> pushed <> [] ->
  buf_ok rooted (pushed ++ out) dotdot.
Proof.
  intros (Hnds & Hlen & Hbase & Hroot) Hall Hne.
  assert (no_double_slash (pushed ++ out) = true) as Hnds'.
  { clear Hne. induction Hall as [|c pushed Hc Hall IH]; [exact Hnds|].
    simpl app. now apply nds_cons_not_slash. }
  split; [split; [exact Hnds'|split; [|split]]|].
  - rewrite length_app. lia.
  - intros pre s Hs Hl. 
    assert (exists pre', out = (pre' ++ s)%list) as [pre' ->].
    { assert (length pre = length pushed + (length out - length s))%nat as Hpl.
      { apply (f_equal (@length ascii)) in Hs. rewrite !length_app in Hs. lia. }
      exists (drop (length pushed) pre).
      apply (f_equal (drop (length pushed))) in Hs.
      rewrite drop_app_length in Hs. rewrite Hs.
      rewrite drop_app_le by lia. reflexivity. }
    now apply (Hbase pre' s).
  - intros Hr. destruct (Hroot Hr) as [H1 Hlast]. split; [exact H1|].
    rewrite last_app, Hlast. reflexivity.
  - destruct pushed as [|c pushed]; [congruence|].
    inversion Hall as [|? ? Hc _]; subst. simpl. intros [= ->]. now contradiction Hc.
Qed.

Lemma slash_pushed_pre rooted out dotdot :
  buf_ok rooted out dotdot -> head out <> Some "/"%char ->
  buf_pre rooted ("/"%char :: out) dotdot.
Proof.
  intros [(Hnds & Hlen & Hbase & Hroot) Hend] Hh.
  split; [now apply nds_cons_slash|]. split; [simpl; lia|]. split.
  - intros pre s Hs Hl. destruct pre as [|a pre].
    + simpl in Hs. subst s. simpl in Hl. lia.
    + injection Hs as _ Hs. now apply (Hbase pre s).
  - intros Hr. destruct (Hroot Hr) as [H1 Hlast]. split; [exact H1|].
    destruct out as [|b out]; [discriminate|]. exact Hlast.
Qed.

End CleanFacts.

Section CleanLoop.

Variable rooted : bool.

Lemma buf_ok_reset out dotdot :
  buf_ok rooted out dotdot -> rooted = false -> head out <> Some "/"%char ->
  buf_ok rooted out (length out).
Proof.
  intros [(Hnds & Hlen & Hbase & Hroot) Hend] Hr Hh.
  split; [split; [exact Hnds|split; [lia|split]]|].
  - intros pre s Hs Hl. assert (pre = []) as ->.
    { apply (f_equal (@length ascii)) in Hs. rewrite length_app in Hs.
      destruct pre; [reflexivity|simpl in Hs; lia]. }
    simpl in Hs. subst s. contradiction.
  - congruence.
  - contradiction.
Qed.

Lemma clean_loop_ok fuel rest out dotdot out' :
  buf_ok rooted out dotdot ->
  Path.clean_loop fuel rooted rest out dotdot = Ok out' ->
  exists dotdot', buf_ok rooted out' dotdot'.
Proof.
  revert rest out dotdot.
  induction fuel as [|fuel IH]; intros rest out dotdot Hok; simpl; [discriminate|].
  destruct rest as [|c rest1]; [intros [= <-]; eauto|].
  destruct (Ascii.eqb_spec c "/") as [->|Hc]; [now apply IH|].
  destruct (Ascii.eqb c "." && Path.at_end_or_slash rest1); [now apply IH|].
  destruct (Ascii.eqb c "." && String.prefix "." rest1
            && Path.at_end_or_slash (Path.tail rest1)).
  - destruct (Nat.ltb_spec dotdot (length out)) as [Hlt|Hge].
    + apply IH. now apply backtrack_ok.
    + destruct (negb rooted) eqn:Hn; [|now apply IH].
      apply negb_true_iff in Hn.
      apply IH.
      assert (head out <> Some "/"%char) as Hh.
      { intros Hh. destruct Hok as [_ Hend]. destruct (Hend Hh). congruence. }
      assert (buf_pre rooted (if Nat.ltb 0 (length out) then "/"%char :: out else out)
                      dotdot) as Hpre.
      { destruct (Nat.ltb 0 (length out)); [now apply slash_pushed_pre|apply Hok]. }
      pose proof (pushed_ok rooted _ dotdot ["."%char; "."%char] Hpre) as Hok2.
      apply (buf_ok_reset
               ("."%char :: "."%char
                :: (if Nat.ltb 0 (length out) then "/"%char :: out else out)) dotdot);
        [|exact Hn|simpl; discriminate].
      apply Hok2; [repeat constructor; discriminate|discriminate].
  - destruct (Path.copy_element (String c rest1) _) as [out2 rest'] eqn:Hcopy.
    apply IH.
    destruct (copy_element_spec _ _ _ _ Hcopy) as (pushed & -> & Hall & _ & Hne).
    destruct (Hne c rest1 eq_refl Hc) as [Hne' _].
    apply pushed_ok; [|exact Hall|exact Hne'].
    match goal with |- buf_pre _ (if ?b then _ else _) _ => destruct b eqn:Hcond end;
      [|apply Hok].
    apply slash_pushed_pre; [exact Hok|].
    intros Hh. destruct Hok as [_ Hend]. destruct (Hend Hh) as [-> ->].
    simpl in Hcond. discriminate.
Qed.

Lemma tail_length s : (String.length (Path.tail s) <= String.length s)%nat.
Proof. destruct s; simpl; lia. Qed.

(** The loop of [Clean] ends within the fuel [Clean] gives it. *)
Lemma clean_loop_total fuel rest out dotdot :
  (String.length rest < fuel)%nat ->
  exists out', Path.clean_loop fuel rooted rest out dotdot = Ok out'.
Proof.
  revert rest out dotdot.
  induction fuel as [|fuel IH]; intros rest out dotdot Hlen; [lia|]. simpl.
  destruct rest as [|c rest1]; [eauto|]. simpl in Hlen.
  pose proof (tail_length rest1) as Htl.
  destruct (Ascii.eqb_spec c "/") as [->|Hc]; [apply IH; lia|].
  destruct (Ascii.eqb c "." && Path.at_end_or_slash rest1); [apply IH; lia|].
  destruct (Ascii.eqb c "." && String.prefix "." rest1
            && Path.at_end_or_slash (Path.tail rest1)).
  - destruct (Nat.ltb dotdot (length out)); [apply IH; lia|].
    destruct (negb rooted); apply IH; lia.
  - destruct (Path.copy_element (String c rest1) _) as [out2 rest'] eqn:Hcopy.
    destruct (copy_element_spec _ _ _ _ Hcopy) as (pushed & _ & _ & _ & Hne).
    destruct (Hne c rest1 eq_refl Hc) as [_ Hl]. apply IH. lia.
Qed.

End CleanLoop.

Lemma list_ascii_of_string_app (s t : string) :
  list_ascii_of_string (s +:+ t)
  = (list_ascii_of_string s ++ list_ascii_of_string t)%list.
Proof. induction s as [|a s IH]; simpl; [reflexivity|now rewrite IH]. Qed.

Lemma lastChar_last s c :
  lastChar s = Ok c <-> last (list_ascii_of_string s) = Some c.
Proof.
  destruct s as [|a s]; simpl; [split; discriminate|].
  revert a. induction s as [|b s IH]; intros a; simpl.
  - split; congruence.
  - specialize (IH b). simpl in IH. rewrite <- IH. reflexivity.
Qed.

Lemma lastChar_total s : s <> "" -> exists c, lastChar s = Ok c.
Proof. destruct s; [congruence|]. intros _. eexists. reflexivity. Qed.

(** [Clean] returns, and what it returns is not empty and has no two
    slashes side by side. *)
Lemma Clean_spec path :
  exists s, Path.Clean path = Ok s /\ s <> "" /\ collapsed s = true.
Proof.
  unfold Path.Clean. destruct path as [|c rest1]; [exists "."; auto|].
  assert (forall rooted out,
             (exists dotdot, buf_ok rooted out dotdot) ->
             exists s, match out with
                       | [] => Ok "."
                       | _ => Ok (string_of_list_ascii (rev out))
                       end = Ok s /\ s <> "" /\ collapsed s = true) as Hfin.
  { intros rooted out [dotdot [(Hnds & _) _]]. destruct out as [|a out]; [exists "."; auto|].
    eexists. split; [reflexivity|]. split.
    - intros H. apply (f_equal list_ascii_of_string) in H.
      rewrite list_ascii_of_string_of_list_ascii in H. simpl in H.
      destruct (rev out); discriminate.
    - unfold collapsed. rewrite list_ascii_of_string_of_list_ascii.
      now apply nds_rev. }
  destruct (Ascii.eqb_spec c "/") as [->|Hc].
  - destruct (clean_loop_total true (S (String.length (String "/" rest1))) rest1
                ["/"%char] 1) as [out Hout]; [simpl; lia|].
    rewrite Hout. cbn [bind]. apply (Hfin true).
    eapply clean_loop_ok; [|exact Hout].
    split; [split; [reflexivity|split; [simpl; lia|split]]|].
    + intros pre s Hs Hl Hh. auto.
    + auto.
    + auto.
  - destruct (clean_loop_total false (S (String.length (String c rest1)))
                (String c rest1) [] 0) as [out Hout]; [lia|].
    rewrite Hout. cbn [bind]. apply (Hfin false).
    eapply clean_loop_ok; [|exact Hout].
    split; [split; [reflexivity|split; [simpl; lia|split]]|].
    + intros pre s Hs Hl Hh. destruct s; [discriminate|]. simpl in Hl. lia.
    + discriminate.
    + discriminate.
Qed.

Lemma Join_two_spec a b :
  b <> "" -> exists s, Path.Join [a; b] = Ok s /\ s <> "" /\ collapsed s = true.
Proof.
  intros Hb. unfold Path.Join.
  destruct (Nat.eqb_spec (list_sum (map String.length [a; b])) 0) as [Hz|_].
  - destruct b; [congruence|]. simpl in Hz. lia.
  - apply Clean_spec.
Qed.

Lemma joinPath_nonempty_child parent child :
  child <> "" ->
  exists s, joinPath parent child = Ok s /\ s <> "" /\ collapsed s = true /\
            (lastChar child = Ok "/"%char -> lastChar s = Ok "/"%char).
Proof.
  intros Hchild. unfold joinPath.
  destruct (decide (child = "")) as [|_]; [contradiction|].
  destruct (Join_two_spec parent child Hchild) as (final & -> & Hne & Hcol).
  cbn [bind].
  destruct (lastChar_total child Hchild) as [a ->]. cbn [bind].
  destruct (Ascii.eqb_spec a "/") as [->|Ha].
  - destruct (lastChar_total final Hne) as [b Hb]. rewrite Hb. cbn [bind].
    destruct (Ascii.eqb_spec b "/") as [->|Hns]; simpl negb; cbn iota.
    + exists final. auto.
    + exists (final +:+ "/"). split; [reflexivity|].
      apply lastChar_last in Hb.
      split; [destruct final; discriminate|]. split.
      * unfold collapsed. rewrite list_ascii_of_string_app. simpl.
        apply nds_snoc; [exact Hcol|]. rewrite Hb. intros [= ->]. contradiction.
      * intros _. apply lastChar_last. rewrite list_ascii_of_string_app.
        apply last_snoc.
  - exists final. repeat split; auto. intros [= ->]. contradiction.
Qed.

(** C9.  [joinPath] with an empty child returns the parent as it is
    ([/api/] stays [/api/], [/api] stays [/api]).  With a child that is not
    empty it returns a path without two slashes side by side, whatever
    slashes the parent ends with and the child starts with, and the path
    ends with a slash when the child does.  It does not panic. *)
Theorem joinPath_keeps_trailing_slash :
  (forall parent, joinPath parent "" = Ok parent) /\
  joinPath "/api/" "" = Ok "/api/" /\
  joinPath "/api" "" = Ok "/api" /\
  (forall parent child,
      child <> "" ->
      exists s, joinPath parent child = Ok s /\ collapsed s = true /\
                (lastChar child = Ok "/"%char -> lastChar s = Ok "/"%char)) /\
  joinPath "/api/" "/users" = Ok "/api/users" /\
  joinPath "/api/" "//users//" = Ok "/api/users/".
Proof.
  split; [reflexivity|]. split; [reflexivity|]. split; [reflexivity|].
  split; [|split; reflexivity].
  intros parent child Hchild.
  destruct (joinPath_nonempty_child parent child Hchild) as (s & Hs & _ & Hcol & Hlast).
  exists s. auto.
Qed.

Lemma joinPath_keeps_trailing_slash_witness :
  exists s, joinPath "/api//" "v1/./users/" = Ok s /\ collapsed s = true /\
            lastChar s = Ok "/"%char.
Proof.
  destruct joinPath_keeps_trailing_slash as (_ & _ & _ & Hgen & _).
  destruct (Hgen "/api//" "v1/./users/") as (s & Hs & Hcol & Hlast);
    [discriminate|].
  exists s. split; [exact Hs|]. split; [exact Hcol|]. apply Hlast. reflexivity.
Defined.

(** [handle] passes [addRoute] a chain that is not nil, so a method and
    path registered through it twice is refused the second time. *)
Lemma handle_twice_is_duplicate r r' e e1 method path hs hs' :
  routePath r' = routePath r ->
  handle r e method path hs = Ok e1 ->
  duplicate_route_error (handle r' e1 method path hs').
Proof.
  unfold handle, jointAbsolutePath. intros ->.
  destruct (negb (regEnLetter method)); [discriminate|].
  destruct (joinPath (routePath r) path) as [p| |]; cbn [bind]; try discriminate.
  intros H. apply addRoute_inv in H as (c & Hc & Ht & _).
  unfold addRoute. rewrite Ht, lookup_insert_eq. simpl default.
  rewrite (addParts_twice _ _ method p _ _ (joinHandler r' hs') _ _ Hc);
    [apply prefix_append|discriminate].
Qed.

(** A route registered through [handle] resolves, under the joined path,
    to the middleware of its group followed by its own handlers. *)
Lemma handle_registers r e e' method path hs :
  engine_ok e ->
  handle r e method path hs = Ok e' ->
  exists absolutePath,
    jointAbsolutePath r path = Ok absolutePath /\
    In (mkRouteInfo method absolutePath) (routeList e') /\
    fst (findRoute e' method absolutePath)
    = Some (elems (Handler r) ++ elems hs)%list.
Proof.
  unfold handle. intros Hok.
  destruct (negb (regEnLetter method)); [discriminate|].
  destruct (jointAbsolutePath r path) as [p| |]; cbn [bind]; try discriminate.
  intros H. exists p. split; [reflexivity|].
  destruct (addRoute_node_at_new _ _ _ _ _ H) as (x & Hx & Hh).
  pose proof (addRoute_engine_ok _ _ _ _ _ Hok H) as Hok'.
  destruct (findRoute_at _ _ _ _ Hok' Hx) as [-> _].
  split; [|exact Hh].
  apply addRoute_inv in H as (_ & _ & _ & ->). apply in_or_app. right. now left.
Qed.

(** ** Dispatch: the fuel is enough *)

Section FuelFacts.

Variable chain : HandlersChain.

Lemma wrap_int_in_int z : in_int (wrap_int z).
Proof.
  unfold in_int, wrap_int, max_int.
  pose proof (Z.mod_pos_bound (z + 2 ^ 63) (2 ^ 64)). lia.
Qed.

Lemma wrap_int_succ i :
  in_int i -> wrap_int (i + 1) = i + 1 \/ wrap_int (i + 1) < 0.
Proof.
  unfold in_int, max_int. intros Hi.
  destruct (Z.eq_dec i (2 ^ 63 - 1)) as [->|Hne].
  - right. vm_compute. reflexivity.
  - left. apply wrap_int_small. unfold max_int. lia.
Qed.

Lemma run_within_fuel lo next :
  within_fuel chain lo next ->
  forall h c, handlers c = chain -> in_int (index c) -> lo <= index c ->
    run next h c <> OutOfFuel /\
    (forall c', run next h c = Ok c' ->
                handlers c' = chain /\ in_int (index c') /\ index c <= index c').
Proof.
  intros Hnext.
  induction h as [|h IH|h IH|code msg h IH|key value h IH|cond a IHa b IHb];
    intros c Hh Hi Hlo; cbn [run].
  - split; [discriminate|]. intros c' [= <-].
    split; [exact Hh|split; [exact Hi|lia]].
  - destruct (Hnext c Hh Hi Hlo) as [Hfuel Hok].
    destruct (next c) as [c1| |]; cbn [bind]; [|split; discriminate|congruence].
    destruct (Hok c1 eq_refl) as (Hh1 & Hi1 & Hmono).
    destruct (IH c1 Hh1 Hi1) as [Hfuel' Hok']; [lia|].
    split; [exact Hfuel'|]. intros c' Hc'.
    destruct (Hok' c' Hc') as (Hh' & Hi' & Hm').
    split; [exact Hh'|split; [exact Hi'|lia]].
  - apply (IH (Abort c)); assumption.
  - apply (IH (String_ c code msg)); assumption.
  - apply (IH (Set_ c key value)); assumption.
  - destruct (cond (view c)); [apply IHa|apply IHb]; assumption.
Qed.

Lemma Next_within_fuel fuel :
  within_fuel chain (Z.of_nat (length (elems chain)) - Z.of_nat fuel) (Next (S fuel)).
Proof.
  induction fuel as [|fuel IH]; intros c Hh Hi Hlo; rewrite Next_unfold;
    (destruct (stopped c);
     [split; [discriminate|intros c' [= <-]; split; [exact Hh|split; [exact Hi|lia]]]|]);
    cbn zeta; cbn [index set_index handlers]; rewrite Hh;
    pose proof (wrap_int_in_int (index c + 1)) as Hw;
    destruct (wrap_int_succ (index c) Hi) as [Heq|Hneg].
  - rewrite Heq. destruct (Z.ltb_spec (index c + 1) (Z.of_nat (length (elems chain))));
      [lia|].
    split; [discriminate|]. intros c' [= <-]. cbn [index set_index handlers].
    rewrite <- Heq at 1. split; [exact Hh|split; [exact Hw|lia]].
  - destruct (Z.ltb_spec (wrap_int (index c + 1)) (Z.of_nat (length (elems chain))));
      [|lia].
    unfold handler_at. destruct (Z.ltb_spec (wrap_int (index c + 1)) 0); [|lia].
    split; discriminate.
  - rewrite Heq. destruct (Z.ltb_spec (index c + 1) (Z.of_nat (length (elems chain)))).
    + destruct (handler_at chain (index c + 1)) as [h|]; [|split; discriminate].
      set (c2 := record_invocation (set_index c (index c + 1))).
      assert (in_int (index c2)) as Hi2 by (unfold c2; simpl; now rewrite <- Heq).
      destruct (run_within_fuel _ _ IH h c2 Hh Hi2) as [Hfuel Hok].
      { unfold c2. simpl. lia. }
      destruct (run (Next (S fuel)) h c2) as [c3| |]; cbn [bind];
        [|split; discriminate|congruence].
      destruct (Hok c3 eq_refl) as (Hh3 & Hi3 & Hmono3).
      unfold c2 in Hmono3. simpl in Hmono3.
      destruct (IH c3 Hh3 Hi3) as [Hfuel' Hok']; [lia|].
      split; [exact Hfuel'|]. intros c' Hc'.
      destruct (Hok' c' Hc') as (Hh' & Hi' & Hm').
      split; [exact Hh'|split; [exact Hi'|lia]].
    + split; [discriminate|]. intros c' [= <-]. cbn [index set_index handlers].
      rewrite <- Heq at 1. split; [exact Hh|split; [exact Hw|lia]].
  - destruct (Z.ltb_spec (wrap_int (index c + 1)) (Z.of_nat (length (elems chain))));
      [|lia].
    unfold handler_at. destruct (Z.ltb_spec (wrap_int (index c + 1)) 0); [|lia].
    split; discriminate.
Qed.

End FuelFacts.

(** Whatever the handlers do, the call of [Next] in [ServeHTTP] returns or
    panics within its fuel. *)
Lemma dispatch_within_fuel chain params : dispatch chain params <> OutOfFuel.
Proof.
  unfold dispatch.
  apply (Next_within_fuel chain (S (length (elems chain)))).
  - reflexivity.
  - unfold in_int, max_int. simpl. lia.
  - simpl index. lia.
Qed.

(** [addRoute] and [joinPath] have no other outcome than a result or a
    panic either. *)
Lemma addRoute_within_fuel e method path hs : addRoute e method path hs <> OutOfFuel.
Proof.
  unfold addRoute.
  pose proof (addParts_fuel method path (splitClean path) hs
                (default rootNode (trees e !! method))) as H.
  destruct (addParts method path (splitClean path) hs _); simpl; congruence.
Qed.

Lemma joinPath_returns parent child : exists s, joinPath parent child = Ok s.
Proof.
  destruct (decide (child = "")) as [->|Hne].
  - exists parent. reflexivity.
  - destruct (joinPath_nonempty_child parent child Hne) as (s & Hs & _). eauto.
Qed.

(** ** The tests of the repository, on the model *)

Example splitClean_route : splitClean "/message/:a/:b" = ["message"; ":a"; ":b"].
Proof. reflexivity. Qed.

Example splitClean_root : splitClean "///" = [] /\ splitClean "" = [].
Proof. split; reflexivity. Qed.

Example Clean_dots : Path.Clean "/api//users/../x/." = Ok "/api/x".
Proof. reflexivity. Qed.

Example Clean_unrooted : Path.Clean "a/../../b" = Ok "../b".
Proof. reflexivity. Qed.

Example Clean_slashes : Path.Clean "///" = Ok "/".
Proof. reflexivity. Qed.

(** TestHttp *)
Example test_http :
  written (ServeHTTP (engine_with "/ping" [answer "Hello World"]) "GET" "/ping")
  = [WriteHeader 200; WriteString "Hello World"].
Proof. vm_compute. reflexivity. Qed.

(** TestHttpWithParam *)
Example test_http_with_param :
  snd (findRoute (engine_with "/p/:param" [answer "ok"]) "GET" "/p/Hello_World")
  = Some {["param" := "Hello_World"]}.
Proof. vm_compute. reflexivity. Qed.

(** TestHttpWithMiddleware *)
Example test_http_with_middleware :
  written (ServeHTTP (engine_with "/p/:id" [auth; answer "world"]) "GET" "/p/ds")
  = [WriteHeader 404; WriteString "param should be Hello"].
Proof. vm_compute. reflexivity. Qed.

(** TestHttpWithMiddlewareSuccess *)
Example test_http_with_middleware_success :
  written (ServeHTTP (engine_with "/p/:id" [auth; answer "world"]) "GET" "/p/Hello")
  = [WriteHeader 200; WriteString "world"].
Proof. vm_compute. reflexivity. Qed.

(** A group: the prefix is joined to the path and the middleware of the
    group runs before the handlers of the route. *)
Example group_route :
  exists g e,
    Group (Use (engineRoute New) (Some [logger])) "/api/" (Some [auth]) = Ok g /\
    handle g New "GET" "/query" (Some [pong]) = Ok e /\
    routeList e = [mkRouteInfo "GET" "/api/query"] /\
    fst (findRoute e "GET" "/api/query") = Some [logger; auth; pong].
Proof. do 2 eexists. repeat split; vm_compute; reflexivity. Qed.

Example invalid_method :
  handle (engineRoute New) New "get" "/ping" (Some [pong])
  = Panic "invalid method 'get'".
Proof. reflexivity. Qed.

(** * More of the code: properties *)

(** ** Dispatch of any chain *)

Section AnyChainFacts.

Variable hs : list HandlerFunc.

Local Abbreviation n := (Z.of_nat (length hs)).

Local Ltac conj_all :=
  repeat match goal with |- _ /\ _ => split end;
  try assumption; try reflexivity.

Lemma run_advances lo next :
  advances hs lo next ->
  forall h c,
    in_sequence hs c -> lo <= index c ->
    potential hs c + Z.of_nat (calls_of_Next h) <= max_int ->
    exists c', run next h c = Ok c' /\ in_sequence hs c' /\
               index c <= index c' /\
               potential hs c' <= potential hs c + Z.of_nat (calls_of_Next h).
Proof.
  intros Hnext.
  induction h as [|h IH|h IH|code msg h IH|key value h IH|cond a IHa b IHb];
    intros c Hseq Hlo Hpot; cbn [run calls_of_Next] in *.
  - exists c. conj_all; lia.
  - destruct (Hnext c Hseq Hlo) as (c1 & -> & Hseq1 & Hmono & _ & _ & Hpot1); [lia|].
    cbn [bind].
    destruct (IH c1 Hseq1) as (c' & Hrun & Hseq' & Hmono' & Hpot'); [lia|lia|].
    exists c'. conj_all; lia.
  - apply (IH (Abort c) Hseq Hlo Hpot).
  - apply (IH (String_ c code msg) Hseq Hlo Hpot).
  - apply (IH (Set_ c key value) Hseq Hlo Hpot).
  - destruct (cond (view c)).
    + destruct (IHa c Hseq Hlo) as (c' & Hrun & Hseq' & Hmono' & Hpot'); [lia|].
      exists c'. conj_all; lia.
    + destruct (IHb c Hseq Hlo) as (c' & Hrun & Hseq' & Hmono' & Hpot'); [lia|].
      exists c'. conj_all; lia.
Qed.

Lemma Next_advances fuel : advances hs (n - Z.of_nat fuel) (Next (S fuel)).
Proof.
  induction fuel as [|fuel IH]; intros c Hseq Hlo Hpot;
    pose proof Hseq as (Hhs & Hidx & Hinv);
    pose proof (pending_nonneg hs (index c)) as Hpend;
    unfold potential in Hpot;
    rewrite Next_unfold;
    (destruct (stopped c) eqn:Hst;
     [exists c; rewrite Hst; conj_all; try lia; discriminate|]);
    cbn zeta;
    rewrite (wrap_int_small (index c + 1)) by (unfold max_int in *; lia);
    cbn [index set_index handlers]; rewrite Hhs.
  - destruct (Z.ltb_spec (index c + 1) n) as [Hlt|Hge]; [lia|].
    eexists. split; [reflexivity|].
    unfold in_sequence, potential. cbn [index set_index handlers stopped invoked].
    rewrite !pending_end by lia.
    conj_all; try lia.
    rewrite Hinv. do 2 f_equal. lia.
  - destruct (Z.ltb_spec (index c + 1) n) as [Hlt|Hge].
    + unfold handler_at. cbn [handlers]. rewrite Hhs.
      destruct (Z.ltb_spec (index c + 1) 0) as [Hneg|_]; [lia|].
      destruct (lookup_lt_is_Some_2 hs (Z.to_nat (index c + 1))) as [h Hh]; [lia|].
      rewrite Hh.
      set (c2 := record_invocation (set_index c (index c + 1))).
      assert (in_sequence hs c2) as Hseq2.
      { unfold in_sequence, c2.
        cbn [index set_index handlers stopped invoked record_invocation].
        conj_all; try lia.
        rewrite Hinv.
        replace (Z.to_nat (Z.min (index c + 1 + 1) n))
          with (S (Z.to_nat (Z.min (index c + 1) n))) by lia.
        rewrite positions_snoc. do 2 f_equal. lia. }
      assert (potential hs c2 + Z.of_nat (calls_of_Next h) = potential hs c) as Hpot2.
      { unfold potential, c2. cbn [index set_index record_invocation].
        rewrite (pending_step hs (index c) h Hidx Hh). lia. }
      assert (index c2 = index c + 1) as Hi2 by reflexivity.
      destruct (run_advances _ _ IH h c2 Hseq2)
        as (c3 & -> & Hseq3 & Hmono3 & Hpot3); [lia|unfold potential in *; lia|].
      cbn [bind].
      destruct (IH c3 Hseq3) as (c' & Hrun & Hseq' & Hmono' & _ & Hfin & Hpot');
        [lia|unfold potential in *; lia|].
      exists c'. split; [exact Hrun|].
      unfold potential in *. conj_all; try lia.
    + eexists. split; [reflexivity|].
      unfold in_sequence, potential. cbn [index set_index handlers stopped invoked].
      rewrite !pending_end by lia.
      conj_all; try lia.
      rewrite Hinv. do 2 f_equal. lia.
Qed.

End AnyChainFacts.

(** X1.  Whatever its handlers do, a chain that holds fewer than 2^63
    calls of [Next] is dispatched to the end: the call of [Next] returns,
    the handlers invoked are those of the first [k] positions, each once and
    in order; the first handler is among them, and all are unless the flag
    is set at the end. *)
Theorem dispatch_invokes_a_prefix (chain : HandlersChain)
    (params : option (gmap string string)) :
  Z.of_nat (calls_bound (elems chain)) <= max_int ->
  exists c k,
    dispatch chain params = Ok c /\
    invoked c = positions k /\
    (k <= length (elems chain))%nat /\
    (elems chain <> [] -> (1 <= k)%nat) /\
    (stopped c = false -> k = length (elems chain)).
Proof.
  intros Hbound.
  set (hs := elems chain) in *.
  set (c0 := startContext chain params).
  assert (in_sequence hs c0) as Hseq0.
  { unfold in_sequence, c0. cbn [startContext handlers index invoked].
    split; [reflexivity|]. split; [lia|].
    replace (Z.to_nat (Z.min (-1 + 1) (Z.of_nat (length hs)))) with O by lia.
    reflexivity. }
  destruct (Next_advances hs (S (length hs)) c0 Hseq0)
    as (c & Hrun & (Hhs & Hidx & Hinv) & _ & Hprog & Hfin & _).
  { unfold c0. cbn [startContext index]. lia. }
  { unfold potential, pending, c0. cbn [startContext index].
    change (Z.to_nat (-1 + 1)) with O. rewrite drop_0. lia. }
  exists c, (Z.to_nat (Z.min (index c + 1) (Z.of_nat (length hs)))).
  split; [exact Hrun|]. split; [exact Hinv|]. split; [lia|].
  specialize (Hprog eq_refl). unfold c0 in Hprog. cbn [startContext index] in Hprog.
  split.
  - intros Hne. destruct hs; [congruence|]. simpl length. lia.
  - intros Hst. specialize (Hfin Hst). lia.
Qed.

Lemma dispatch_invokes_a_prefix_witness :
  exists c k,
    dispatch (Some [logger; auth; pong]) None = Ok c /\
    invoked c = positions k /\ (1 <= k <= 3)%nat.
Proof.
  destruct (dispatch_invokes_a_prefix (Some [logger; auth; pong]) None)
    as (c & k & Hd & Hi & Hle & Hone & _).
  - vm_compute. discriminate.
  - exists c, k. split; [exact Hd|]. split; [exact Hi|].
    split; [apply Hone; discriminate|exact Hle].
Defined.

(** ** What a dispatch leaves alone *)









(** ** More on the routing tree *)

Lemma register_all_bookkeeping e0 rs e :
  register_all e0 rs = Ok e ->
  routeList e = (routeList e0 ++ map info_of rs)%list /\
  (forall m, is_Some (trees e !! m) <->
             is_Some (trees e0 !! m) \/ exists r, In r rs /\ reg_method r = m).
Proof.
  revert e0. induction rs as [|r rs IH]; intros e0 H.
  - injection H as <-. simpl. rewrite app_nil_r. split; [reflexivity|].
    intros m. split; [auto|]. intros [H|(r & [] & _)]. exact H.
  - apply register_all_cons_inv in H as (e1 & H1 & H2).
    destruct (IH _ H2) as [Hl Ht].
    apply addRoute_inv in H1 as (c & _ & Ht1 & Hl1).
    split.
    + rewrite Hl, Hl1, <- app_assoc. reflexivity.
    + intros m. rewrite Ht, Ht1. split.
      * intros [Hs|(r' & Hin & Hm)].
        -- destruct (decide (reg_method r = m)) as [Heq|Hne].
           ++ right. exists r. split; [now left|exact Heq].
           ++ rewrite lookup_insert_ne in Hs by assumption. now left.
        -- right. exists r'. split; [now right|exact Hm].
      * intros [Hs|(r' & [<-|Hin] & Hm)].
        -- left. destruct (decide (reg_method r = m)) as [Heq|Hne].
           ++ rewrite Heq, lookup_insert_eq. eauto.
           ++ now rewrite lookup_insert_ne.
        -- left. rewrite Hm, lookup_insert_eq. eauto.
        -- right. exists r'. auto.
Qed.

(** X3.  The registry of an engine lists its registrations, one entry
    each, in the order they were made, with the path as it was given; and
    the engine has a tree for a method exactly when a route of that method
    was registered. *)
Theorem registry_lists_registrations (rs : list registration) (e : Engine) :
  register_all New rs = Ok e ->
  routeList e = map info_of rs /\
  (forall m, trees e !! m = None <-> forall r, In r rs -> reg_method r <> m).
Proof.
  intros H. destruct (register_all_bookkeeping _ _ _ H) as [Hl Ht].
  split; [exact Hl|]. intros m. specialize (Ht m).
  change (trees New) with (∅ : gmap string node) in Ht.
  rewrite lookup_empty in Ht. split.
  - intros Hnone r Hin Hm. rewrite Hnone in Ht.
    destruct Ht as [_ Ht]. destruct Ht as [x Hx]; [right; eauto|discriminate].
  - intros Hno. destruct (trees e !! m) as [x|] eqn:Hx; [|reflexivity].
    destruct Ht as [Ht _]. destruct Ht as [[y Hy]|(r & Hin & Hm)]; [eauto|discriminate|].
    exfalso. eapply Hno; eauto.
Qed.

Lemma registry_lists_registrations_witness :
  routeList demo_engine
  = [mkRouteInfo "GET" "/ping"; mkRouteInfo "GET" "/message/:param";
     mkRouteInfo "GET" "/message/:param/:param2"; mkRouteInfo "POST" "/api/query"] /\
  trees demo_engine !! "DELETE" = None.
Proof.
  destruct (registry_lists_registrations demo_routes demo_engine
              demo_engine_registered) as [Hl Ht].
  split; [exact Hl|]. apply Ht.
  intros r Hin. simpl in Hin.
  destruct Hin as [<-|[<-|[<-|[<-|[]]]]]; discriminate.
Defined.

(** ** Requests that match a route *)

Lemma matches_cons_inv pat pattern seg request :
  matches (pat :: pattern) (seg :: request) = true ->
  (is_param pat = true \/ is_param pat = false /\ pat = seg) /\
  matches pattern request = true.
Proof.
  simpl. intros H. apply andb_true_iff in H as [H1 H2]. split; [|exact H2].
  destruct (is_param pat); [now left|]. right. split; [reflexivity|].
  simpl in H1. now apply String.eqb_eq.
Qed.

Lemma matches_length pattern request :
  matches pattern request = true -> length pattern = length request.
Proof.
  revert request. induction pattern as [|pat pattern IH]; intros [|seg request];
    simpl; try discriminate; [reflexivity|].
  intros H. apply andb_true_iff in H as [_ H]. now rewrite (IH _ H).
Qed.

(** The walk of [findRoute] follows the positions of a route the request
    matches, as long as no static child takes a parameter position. *)
Lemma findParts_follows_match pattern request n x params :
  descend n (shape pattern) = Some x ->
  matches pattern request = true ->
  unshadowed n pattern request = true ->
  exists params', findParts request n params = Some (x, params').
Proof.
  revert request n params.
  induction pattern as [|pat pattern IH]; intros [|seg request] n params Hd Hm Hu;
    try discriminate.
  - injection Hd as <-. eauto.
  - apply matches_cons_inv in Hm as [Hpat Hm].
    simpl in Hd, Hu. destruct (child_at n (edge pat)) as [n'|] eqn:Hc; [|discriminate].
    apply andb_true_iff in Hu as [Hfree Hu]. simpl.
    destruct Hpat as [Hp|[Hp ->]].
    + rewrite Hp in Hfree. apply bool_decide_eq_true in Hfree. rewrite Hfree.
      rewrite (edge_param _ Hp) in Hc. simpl in Hc. rewrite Hc.
      eapply IH; eauto.
    + rewrite (edge_static _ Hp) in Hc. simpl in Hc. rewrite Hc.
      eapply IH; eauto.
Qed.

(** X4.  A request that matches a registered route resolves to the
    handlers of that route, provided that at no parameter position of the
    route the node has a static child keyed by the segment of the request:
    [findRoute] takes the static child when there is one and does not come
    back to the parameter child. *)
Theorem matching_request_resolves (rs : list registration) (e : Engine)
    (r : registration) (path : string) :
  register_all New rs = Ok e ->
  Forall (fun r0 => reg_handlers r0 <> None) rs ->
  In r rs ->
  matches (splitClean (reg_path r)) (splitClean path) = true ->
  unshadowed_in e (reg_method r) (splitClean (reg_path r)) (splitClean path) = true ->
  fst (findRoute e (reg_method r) path) = reg_handlers r /\
  ServeHTTP e (reg_method r) path
  = Dispatched (dispatch (reg_handlers r) (snd (findRoute e (reg_method r) path))).
Proof.
  intros Hreg Hnn Hin Hm Hu.
  assert (exists x, node_at e (reg_method r) (shape (splitClean (reg_path r))) = Some x /\
                    node_handlers x = reg_handlers r) as (x & Hx & Hh).
  { clear Hm Hu. revert Hreg. generalize New as e0.
    induction rs as [|r0 rs IH]; intros e0 H; [destruct Hin|].
    apply register_all_cons_inv in H as (e1 & H1 & H2).
    inversion Hnn as [|? ? Hnn0 Hnn']; subst.
    destruct Hin as [<-|Hin]; [|eapply IH; eauto].
    destruct (addRoute_node_at_new _ _ _ _ _ H1) as (x & Hx & Hh).
    destruct (register_all_preserves _ _ _ _ _ _ H2 Hx) as (x' & Hx' & _ & _ & Hkeep).
    exists x'. split; [exact Hx'|]. rewrite Hkeep; congruence. }
  assert (fst (findRoute e (reg_method r) path) = reg_handlers r) as Hfst.
  { unfold node_at in Hx. unfold unshadowed_in in Hu. unfold findRoute.
    destruct (trees e !! reg_method r) as [root|]; [|discriminate].
    destruct (findParts_follows_match _ _ _ _ None Hx Hm Hu) as (params' & ->).
    exact Hh. }
  split; [exact Hfst|].
  unfold ServeHTTP. destruct (findRoute e (reg_method r) path) as [hs params].
  simpl in *. subst hs.
  inversion Hnn; subst; try contradiction.
  rewrite Forall_forall in Hnn. specialize (Hnn r).
  destruct (reg_handlers r); [reflexivity|].
  exfalso. apply Hnn; [apply list_elem_of_In; exact Hin|reflexivity].
Qed.

Lemma matching_request_resolves_witness :
  fst (findRoute demo_engine "GET" "/message/hello/world") = Some [echo; pong].
Proof.
  assert (In (mkRegistration "GET" "/message/:param/:param2" (Some [echo; pong]))
             demo_routes) as Hin by (simpl; auto).
  destruct (matching_request_resolves demo_routes demo_engine _
              "/message/hello/world" demo_engine_registered demo_routes_not_nil Hin)
    as [Hf _]; [reflexivity|vm_compute; reflexivity|exact Hf].
Defined.

(** Without the proviso the request may be lost: after [/u/p/x] and
    [/u/:id/y], the request [/u/p/y] matches the second route and is not
    found. *)
Example static_child_shadows_param (h1 h2 : HandlersChain) :
  exists e,
    register_all New [mkRegistration "GET" "/u/p/x" h1;
                      mkRegistration "GET" "/u/:id/y" h2] = Ok e /\
    matches (splitClean "/u/:id/y") (splitClean "/u/p/y") = true /\
    findRoute e "GET" "/u/p/y" = (None, None).
Proof. eexists. repeat split; vm_compute; reflexivity. Qed.

(** ** The first route of an engine *)

Lemma from_1_param_name part name : from_1 part = Ok name -> param_name part = name.
Proof. destruct part; simpl; [discriminate|congruence]. Qed.

Lemma addParts_segment method path parts hs n n' :
  addParts method path parts hs n = Ok n' -> segment n' = segment n.
Proof.
  intros H.
  destruct (addParts_preserves _ _ _ _ _ _ [] n H eq_refl) as (x & [= <-] & Hs & _).
  exact Hs.
Qed.

(** On a node just created no registration fails. *)
Lemma addParts_new_ok method path parts hs n :
  is_new n -> exists n', addParts method path parts hs n = Ok n'.
Proof.
  revert n. induction parts as [|part parts IH]; intros n (Hh & Hc & Hp); simpl.
  - rewrite Hh. eauto.
  - rewrite Hc, Hp, lookup_empty.
    destruct (Strings.HasPrefix part ":") eqn:Hpar.
    + destruct (is_param_from_1 part Hpar) as [name ->]. cbn [bind].
      destruct (IH (mkNode name true None ∅ None)) as [next' ->]; [repeat split|].
      cbn [bind]. eauto.
    + destruct (IH (mkNode part false None ∅ None)) as [next' ->]; [repeat split|].
      cbn [bind]. eauto.
Qed.

Lemma findParts_single_route method path parts hs n n' request params :
  is_new n -> addParts method path parts hs n = Ok n' ->
  matches parts request = true ->
  exists x, findParts request n' params = Some (x, bind_params parts request params) /\
            node_handlers x = hs.
Proof.
  revert n n' request params.
  induction parts as [|part parts IH]; intros n n' [|seg request] params Hnew H Hm;
    try discriminate.
  - apply addParts_nil_inv in H as [_ ->]. eexists. split; reflexivity.
  - apply matches_cons_inv in Hm as [Hpat Hm].
    pose proof Hnew as (_ & Hc & Hp).
    apply addParts_cons_inv in H
      as [(Hpar & _ & next & next' & Hnext & Hrec & ->)
         |(Hpar & _ & next & next' & Hnext & Hrec & ->)].
    + destruct Hnext as [Hsome|(_ & Hnext & _ & Hname)]; [congruence|].
      cbn [findParts children set_paramNode paramNode bind_params].
      rewrite Hc, lookup_empty, Hpar.
      rewrite (addParts_segment _ _ _ _ _ _ Hrec), <- (from_1_param_name _ _ Hname).
      eapply IH; eauto.
    + destruct Hnext as [Hsome|(_ & Hnext & _)];
        [rewrite Hc, lookup_empty in Hsome; discriminate|].
      destruct Hpat as [Hp'|[_ <-]]; [congruence|].
      cbn [findParts children set_child bind_params].
      rewrite lookup_insert_eq, Hpar.
      eapply IH; eauto.
Qed.

(** A name that no later segment binds keeps its binding. *)
Lemma bind_params_other pattern request params name :
  ~ In name (param_names pattern) ->
  default ∅ (bind_params pattern request params) !! name = default ∅ params !! name.
Proof.
  revert request params. induction pattern as [|pat pattern IH];
    intros [|seg request] params Hnot; try reflexivity.
  cbn [bind_params]. unfold param_names in *. simpl in Hnot.
  destruct (is_param pat) eqn:Hp.
  - simpl in Hnot. rewrite IH by tauto. simpl.
    rewrite lookup_insert_ne; [reflexivity|]. intros Heq. apply Hnot. now left.
  - now apply IH.
Qed.

Lemma bind_params_lookup pattern request params i pat seg :
  NoDup (param_names pattern) ->
  pattern !! i = Some pat -> is_param pat = true -> request !! i = Some seg ->
  default ∅ (bind_params pattern request params) !! param_name pat = Some seg.
Proof.
  revert request params i. induction pattern as [|p0 pattern IH];
    intros [|s0 request] params i Hnd Hpat Hp Hseg;
    try (destruct i; discriminate).
  cbn [bind_params]. unfold param_names in *. simpl in Hnd.
  destruct i as [|i]; simpl in Hpat, Hseg.
  - injection Hpat as ->. injection Hseg as ->. rewrite Hp in *. simpl in Hnd.
    apply NoDup_cons in Hnd as [Hnot _].
    rewrite bind_params_other.
    + simpl. apply lookup_insert_eq.
    + unfold param_names. rewrite <- list_elem_of_In. exact Hnot.
  - destruct (is_param p0); [simpl in Hnd; apply NoDup_cons in Hnd as [_ Hnd]|];
      eapply IH; eauto.
Qed.

(** X5.  The first route an engine gets is always accepted.  A request
    then resolves to its handlers when it matches it segment by segment,
    with every parameter name of the route bound to the segment at its
    place (the last one for a name used twice); [c.Param] gives a handler
    that segment, and the empty string for any other name. *)
Theorem first_route_resolves (method path : string) (hs : HandlersChain)
    (request : string) :
  exists e,
    addRoute New method path hs = Ok e /\
    (matches (splitClean path) (splitClean request) = true ->
     findRoute e method request
     = (hs, bind_params (splitClean path) (splitClean request) None) /\
     let c := startContext hs (snd (findRoute e method request)) in
     (NoDup (param_names (splitClean path)) ->
      forall i pat seg,
        splitClean path !! i = Some pat -> is_param pat = true ->
        splitClean request !! i = Some seg ->
        Param c (param_name pat) = seg) /\
     (forall name, ~ In name (param_names (splitClean path)) -> Param c name = "")).
Proof.
  destruct (addParts_new_ok method path (splitClean path) hs rootNode)
    as [root' Hroot]; [repeat split|].
  eexists. split.
  - unfold addRoute. change (trees New) with (∅ : gmap string node).
    rewrite lookup_empty. cbn [default]. rewrite Hroot. reflexivity.
  - intros Hm.
    assert (is_new rootNode) as Hnew by (repeat split).
    destruct (findParts_single_route _ _ _ _ _ _ _ None Hnew Hroot Hm)
      as (x & Hf & Hh).
    assert (findRoute
              (mkEngine (engineRoute New)
                 (routeList New ++ [mkRouteInfo method path])
                 (<[method := root']> (∅ : gmap string node))) method request
            = (hs, bind_params (splitClean path) (splitClean request) None)) as Hfind.
    { unfold findRoute. cbn [trees]. rewrite lookup_insert_eq, Hf. now rewrite Hh. }
    split; [exact Hfind|]. cbn zeta. rewrite Hfind. cbn [snd].
    unfold Param. cbn [startContext Params]. split.
    + intros Hnd i pat seg Hpat Hp Hseg.
      now rewrite (bind_params_lookup _ _ None i pat seg Hnd Hpat Hp Hseg).
    + intros name Hnot. rewrite (bind_params_other _ _ None name Hnot).
      simpl. now rewrite lookup_empty.
Qed.

Lemma first_route_resolves_witness :
  exists e,
    addRoute New "GET" "/p/:param" (Some [echo]) = Ok e /\
    Param (startContext (Some [echo]) (snd (findRoute e "GET" "/p/Hello_World")))
          "param" = "Hello_World".
Proof.
  destruct (first_route_resolves "GET" "/p/:param" (Some [echo]) "/p/Hello_World")
    as (e & He & Hm).
  exists e. split; [exact He|].
  destruct (Hm eq_refl) as (_ & Hbound & _).
  assert (NoDup (param_names (splitClean "/p/:param"))) as Hnd
    by (change (param_names (splitClean "/p/:param")) with ["param"];
        apply NoDup_singleton).
  apply (Hbound Hnd 1%nat ":param"); reflexivity.
Defined.

(** ** Paths in normal form *)

Lemma Split_pieces_no_slash p s :
  In s (Strings.Split p Strings.slash) -> has_slash s = false.
Proof.
  revert s. induction p as [|a r IH]; simpl; intros s Hin.
  - destruct Hin as [<-|[]]. reflexivity.
  - destruct (Ascii.eqb a Strings.slash) eqn:Ha.
    + destruct Hin as [<-|Hin]; [reflexivity|]. now apply IH.
    + pose proof (Split_not_nil r Strings.slash) as Hnn.
      destruct (Strings.Split r Strings.slash) as [|x xs] eqn:Hs; [congruence|].
      destruct Hin as [<-|Hin].
      * simpl. rewrite Ha. simpl. apply IH. now left.
      * apply IH. now right.
Qed.

Lemma splitClean_gives_segments p : Forall is_segment (splitClean p).
Proof.
  rewrite splitClean_segments. unfold segments_of. apply List.Forall_forall.
  intros s Hin. apply List.filter_In in Hin as [Hin Hne]. split.
  - destruct s; [discriminate|discriminate].
  - eapply Split_pieces_no_slash; eauto.
Qed.

Lemma segments_of_rebuild segs :
  Forall is_segment segs -> segments_of (rebuild segs) = segs.
Proof.
  induction 1 as [|s segs [Hne Hns] Hall IH]; [reflexivity|].
  simpl rebuild.
  change ("/" +:+ s +:+ rebuild segs) with (String Strings.slash (s +:+ rebuild segs)).
  rewrite segments_of_slash.
  destruct segs as [|s' segs'].
  - simpl rebuild. rewrite append_empty_r. now apply segments_of_single.
  - simpl rebuild in *.
    change ("/" +:+ s' +:+ rebuild segs')
      with (String Strings.slash (s' +:+ rebuild segs')) in *.
    rewrite segments_of_app, (segments_of_single s Hne Hns).
    rewrite segments_of_slash in IH. now rewrite IH.
Qed.

(** X6.  Splitting is undone by putting a slash in front of every segment
    and splitting again: a list of segments (not empty, without a slash) is
    what [splitClean] gives for the path built from it, and every path
    resolves as the path built from its own segments. *)
Theorem splitClean_rebuild :
  (forall segs, Forall is_segment segs -> splitClean (rebuild segs) = segs) /\
  (forall p, Forall is_segment (splitClean p)) /\
  (forall p, splitClean (rebuild (splitClean p)) = splitClean p) /\
  (forall e method p,
      findRoute e method (rebuild (splitClean p)) = findRoute e method p).
Proof.
  assert (forall segs, Forall is_segment segs -> splitClean (rebuild segs) = segs)
    as Hround.
  { intros segs Hall. rewrite splitClean_segments. now apply segments_of_rebuild. }
  assert (forall p, splitClean (rebuild (splitClean p)) = splitClean p) as Hnorm.
  { intros p. apply Hround, splitClean_gives_segments. }
  split; [exact Hround|]. split; [exact splitClean_gives_segments|].
  split; [exact Hnorm|].
  intros e method p. unfold findRoute. now rewrite Hnorm.
Qed.

Lemma splitClean_rebuild_witness :
  splitClean (rebuild ["api"; ":id"; "x"]) = ["api"; ":id"; "x"].
Proof.
  destruct splitClean_rebuild as [Hround _].
  apply Hround. repeat constructor; discriminate.
Defined.

(** ** Conflicts *)

Lemma registered_node_at rs e r :
  register_all New rs = Ok e -> In r rs ->
  exists x, node_at e (reg_method r) (shape (splitClean (reg_path r))) = Some x.
Proof.
  generalize New as e0. induction rs as [|r0 rs IH]; intros e0 H Hin; [destruct Hin|].
  apply register_all_cons_inv in H as (e1 & H1 & H2).
  destruct Hin as [<-|Hin]; [|eapply IH; eauto].
  destruct (addRoute_node_at_new _ _ _ _ _ H1) as (x & Hx & _).
  destruct (register_all_preserves _ _ _ _ _ _ H2 Hx) as (x' & Hx' & _).
  eauto.
Qed.

Lemma shape_app l1 l2 : shape (l1 ++ l2) = (shape l1 ++ shape l2)%list.
Proof. unfold shape. apply map_app. Qed.

(** X7.  Once a route with a parameter segment is registered, a route
    that has the same segments in front (static ones equal, parameters at
    the same places) and a static segment where the first has its parameter
    is refused with the conflict message. *)
Theorem static_where_param_is_registered (rs : list registration) (e : Engine)
    (r : registration) (pre rest pre' rest' : list string)
    (par path lit : string) (hs : HandlersChain) :
  register_all New rs = Ok e ->
  In r rs ->
  splitClean (reg_path r) = (pre ++ par :: rest)%list ->
  is_param par = true ->
  splitClean path = (pre' ++ lit :: rest')%list ->
  shape pre' = shape pre ->
  is_param lit = false ->
  conflict_error (addRoute e (reg_method r) path hs).
Proof.
  intros Hreg Hin Hsplit Hpar Hpath Hshape Hlit.
  destruct (registered_node_at _ _ _ Hreg Hin) as (x & Hx).
  rewrite Hsplit, shape_app in Hx. unfold node_at in Hx.
  destruct (trees e !! reg_method r) as [root|] eqn:Hroot; [|discriminate].
  rewrite descend_app in Hx.
  destruct (descend root (shape pre)) as [y|] eqn:Hy; [|discriminate].
  simpl in Hx. rewrite (edge_param _ Hpar) in Hx. simpl in Hx.
  eapply static_after_param_is_refused; eauto.
  - unfold node_at. rewrite Hroot, Hshape. exact Hy.
  - destruct (paramNode y); [discriminate|discriminate].
Qed.

Lemma static_where_param_is_registered_witness :
  conflict_error (addRoute demo_engine "GET" "/message/:x/fixed" (Some [pong])).
Proof.
  assert (In (mkRegistration "GET" "/message/:param/:param2" (Some [echo; pong]))
             demo_routes) as Hin by (simpl; auto).
  apply (static_where_param_is_registered demo_routes demo_engine _
           ["message"; ":param"] [] ["message"; ":x"] []
           ":param2" "/message/:x/fixed" "fixed" (Some [pong])
           demo_engine_registered Hin);
    reflexivity.
Defined.

Lemma param_conflict_error_bind {A B : Type} (r : result A) (k : A -> result B) :
  (forall a, ~ param_conflict_error (k a)) ->
  ~ param_conflict_error r -> ~ param_conflict_error (call x <- r; k x).
Proof. intros Hk Hr. destruct r; simpl; auto. Qed.

Lemma addParts_no_param_conflict method path parts hs n :
  static_keys_ok n -> ~ param_conflict_error (addParts method path parts hs n).
Proof.
  revert n. induction parts as [|part parts IH]; intros n Hok; simpl.
  - destruct (node_handlers n); simpl; [discriminate|tauto].
  - destruct (Strings.HasPrefix part ":") eqn:Hp.
    + rewrite (param_token_is_no_key _ _ Hok Hp).
      destruct (paramNode n) as [pn|] eqn:Hpn; cbn [bind].
      * apply param_conflict_error_bind; [intros a; simpl; tauto|].
        apply IH. eapply static_keys_ok_paramNode; eauto.
      * destruct (is_param_from_1 part Hp) as [name ->]. cbn [bind].
        apply param_conflict_error_bind; [intros a; simpl; tauto|].
        apply IH. apply static_keys_ok_new. repeat split.
    + destruct (paramNode n); [simpl; discriminate|].
      apply param_conflict_error_bind; [intros a; simpl; tauto|].
      apply IH. destruct (children n !! part) as [c|] eqn:Hc.
      * eapply static_keys_ok_child; eauto.
      * apply static_keys_ok_new. repeat split.
Qed.

(** X8.  In an engine built by registrations, no registration is ever
    refused with the message of the parameter branch ("conflict: param
    ..."): the test that guards it looks a parameter token up among the
    static keys, and no static key is a parameter token. *)
Theorem param_conflict_is_unreachable (rs : list registration) (e : Engine)
    (method path : string) (hs : HandlersChain) :
  register_all New rs = Ok e ->
  ~ param_conflict_error (addRoute e method path hs).
Proof.
  intros Hreg.
  pose proof (register_all_engine_ok _ _ _ engine_ok_New Hreg) as Hok.
  unfold addRoute.
  apply param_conflict_error_bind; [intros a; simpl; tauto|].
  apply addParts_no_param_conflict. now apply default_root_ok.
Qed.

Lemma param_conflict_is_unreachable_witness :
  ~ param_conflict_error (addRoute demo_engine "GET" "/ping/:id" (Some [pong])) /\
  exists e, addRoute demo_engine "GET" "/ping/:id" (Some [pong]) = Ok e.
Proof.
  split.
  - apply (param_conflict_is_unreachable demo_routes demo_engine "GET" "/ping/:id"
             (Some [pong]) demo_engine_registered).
  - eexists. vm_compute. reflexivity.
Defined.

(** ** The segments of a joined path *)

Lemma string_of_list_ascii_app (l1 l2 : list ascii) :
  string_of_list_ascii (l1 ++ l2)
  = string_of_list_ascii l1 +:+ string_of_list_ascii l2.
Proof. induction l1 as [|a l1 IH]; simpl; [reflexivity|now rewrite IH]. Qed.

Lemma buffer_cons out c : buffer (c :: out) = buffer out +:+ String c "".
Proof. unfold buffer. simpl rev. now rewrite string_of_list_ascii_app. Qed.

Lemma last_cons_Some (out : list ascii) c c0 :
  last out = Some c0 -> last (c :: out) = Some c0.
Proof. intros H. rewrite last_cons, H. reflexivity. Qed.

Lemma copy_element_split rest out out2 rest' :
  Path.copy_element rest out = (out2, rest') ->
  exists e, buffer out2 = buffer out +:+ e /\ rest = e +:+ rest' /\
            has_slash e = false /\ Path.at_end_or_slash rest' = true /\
            (forall c, last out = Some c -> last out2 = Some c).
Proof.
  revert out. induction rest as [|c r IH]; intros out; simpl.
  - intros [= <- <-]. exists "". rewrite append_empty_r. auto.
  - destruct (Ascii.eqb c "/") eqn:Hc.
    + intros [= <- <-]. exists "". rewrite append_empty_r. simpl. rewrite Hc. auto.
    + intros H. destruct (IH _ H) as (e & Hb & -> & Hns & Hend & Hl).
      exists (String c e). split.
      * rewrite Hb, buffer_cons, append_assoc. reflexivity.
      * split; [reflexivity|].
        split; [simpl; unfold Strings.slash; now rewrite Hc|].
        split; [exact Hend|].
        intros c0 Hc0. apply Hl. now apply last_cons_Some.
Qed.

(** The first piece of a path, when it is not empty, is its first
    segment. *)
Lemma segments_of_first e r :
  e <> "" -> has_slash e = false -> Path.at_end_or_slash r = true ->
  segments_of (e +:+ r) = e :: segments_of r.
Proof.
  intros Hne Hns Hend. destruct r as [|c r]; simpl in Hend.
  - rewrite append_empty_r. now apply segments_of_single.
  - apply Ascii.eqb_eq in Hend. subst c.
    change (String "/" r) with (String Strings.slash r).
    rewrite segments_of_app, segments_of_slash, (segments_of_single e Hne Hns).
    reflexivity.
Qed.

Lemma dot_free_first e r :
  e <> "" -> has_slash e = false -> Path.at_end_or_slash r = true ->
  dot_free (e +:+ r) -> is_dot e = false /\ dot_free r.
Proof.
  intros Hne Hns Hend Hdf. unfold dot_free in *.
  rewrite (segments_of_first e r Hne Hns Hend) in Hdf.
  inversion Hdf; subst. auto.
Qed.

Lemma prefix_dot s : String.prefix "." s = true -> exists r, s = String "." r.
Proof.
  destruct s as [|a r]; [discriminate|].
  change (String.prefix "." (String a r))
    with (if ascii_dec "." a then String.prefix "" r else false).
  destruct (ascii_dec "." a) as [<-|]; [eauto|discriminate].
Qed.

(** A turn of the loop of [Clean] that copies an element adds that element
    to the segments of the buffer. *)
Lemma copy_turn_segments (rooted : bool) c rest1 out out2 rest' :
  c <> "/"%char ->
  dot_free (String c rest1) ->
  (rooted = true -> last out = Some "/"%char) ->
  Path.copy_element (String c rest1)
    (if rooted && negb (Nat.eqb (length out) 1)
        || negb rooted && negb (Nat.eqb (length out) 0)
     then "/"%char :: out else out) = (out2, rest') ->
  (segments_of (buffer out2) ++ segments_of rest')%list
  = (segments_of (buffer out) ++ segments_of (String c rest1))%list /\
  dot_free rest' /\
  (rooted = true -> last out2 = Some "/"%char).
Proof.
  intros Hc Hdf Hroot Hcopy.
  destruct (copy_element_split _ _ _ _ Hcopy) as (e & Hb & He & Hns & Hend & Hl).
  assert (e <> "") as Hne.
  { intros ->. simpl in He. subst rest'. simpl in Hend.
    apply Ascii.eqb_eq in Hend. contradiction. }
  rewrite He in Hdf. destruct (dot_free_first e rest' Hne Hns Hend Hdf) as [_ Hdf'].
  rewrite He, (segments_of_first e rest' Hne Hns Hend), Hb.
  split; [|split; [exact Hdf'|]].
  -     destruct (rooted && negb (Nat.eqb (length out) 1)
              || negb rooted && negb (Nat.eqb (length out) 0)) eqn:Hcond.
    + rewrite buffer_cons, append_assoc.
      change (String "/" "" +:+ e) with (String Strings.slash e).
      rewrite segments_of_app, (segments_of_single e Hne Hns).
      now rewrite <- app_assoc.
    + destruct rooted; simpl in Hcond; rewrite ?orb_false_r in Hcond.
      * apply negb_false_iff, Nat.eqb_eq in Hcond.
        specialize (Hroot eq_refl).
        destruct out as [|a [|b out]]; try discriminate.
        simpl in Hroot. injection Hroot as ->.
        change (buffer ["/"%char] +:+ e) with (String Strings.slash e).
        rewrite segments_of_slash, (segments_of_single e Hne Hns). reflexivity.
      * apply negb_false_iff, Nat.eqb_eq in Hcond.
        destruct out; [|discriminate].
        change (buffer [] +:+ e) with e.
        rewrite (segments_of_single e Hne Hns). reflexivity.
  - intros Hr. apply Hl. specialize (Hroot Hr).
    destruct (_ || _); [now apply last_cons_Some|exact Hroot].
Qed.

Lemma clean_loop_segments rooted fuel rest out dotdot out' :
  dot_free rest ->
  (rooted = true -> last out = Some "/"%char) ->
  Path.clean_loop fuel rooted rest out dotdot = Ok out' ->
  segments_of (buffer out') = (segments_of (buffer out) ++ segments_of rest)%list.
Proof.
  revert rest out dotdot.
  induction fuel as [|fuel IH]; intros rest out dotdot Hdf Hroot; simpl;
    [discriminate|].
  destruct rest as [|c rest1].
  { intros [= <-]. simpl. now rewrite app_nil_r. }
  destruct (Ascii.eqb_spec c "/") as [->|Hc].
  { intros H. assert (dot_free rest1) as Hdf1 by exact Hdf.
    rewrite (IH _ _ _ Hdf1 Hroot H). reflexivity. }
  destruct (Ascii.eqb c "." && Path.at_end_or_slash rest1) eqn:Hdot.
  { (* the piece "." *)
    exfalso. apply andb_true_iff in Hdot as [Hd Hend1].
    apply Ascii.eqb_eq in Hd. subst c.
    destruct (dot_free_first "." rest1) as [Hd _];
      [discriminate|reflexivity|exact Hend1|exact Hdf|discriminate]. }
  destruct (Ascii.eqb c "." && String.prefix "." rest1
            && Path.at_end_or_slash (Path.tail rest1)) eqn:Hdd.
  { (* the piece ".." *)
    exfalso. apply andb_true_iff in Hdd as [Hdd Hend2].
    apply andb_true_iff in Hdd as [Hd Hpre].
    apply Ascii.eqb_eq in Hd. subst c.
    destruct (prefix_dot _ Hpre) as [rest2 ->].
    simpl in Hend2.
    destruct (dot_free_first ".." rest2) as [Hd _];
      [discriminate|reflexivity|exact Hend2|exact Hdf|discriminate]. }
  destruct (Path.copy_element (String c rest1) _) as [out2 rest'] eqn:Hcopy.
  intros H.
  destruct (copy_turn_segments rooted c rest1 out out2 rest' Hc Hdf Hroot Hcopy)
    as (Hseg & Hdf' & Hroot').
  rewrite (IH _ _ _ Hdf' Hroot' H). exact Hseg.
Qed.

Lemma segments_of_not_nil c r : c <> "/"%char -> segments_of (String c r) <> [].
Proof.
  intros Hc. unfold segments_of. simpl.
  destruct (Ascii.eqb_spec c Strings.slash) as [->|_]; [contradiction|].
  destruct (Strings.Split r Strings.slash); discriminate.
Qed.

(** [Clean] keeps the segments of a path that has no ["."] and no [".."]
    among them. *)
Lemma Clean_segments path :
  path <> "" -> dot_free path ->
  exists s, Path.Clean path = Ok s /\ segments_of s = segments_of path.
Proof.
  intros Hne Hdf. destruct path as [|c rest1]; [congruence|]. unfold Path.Clean.
  destruct (Ascii.eqb_spec c "/") as [->|Hc].
  - destruct (clean_loop_total true (S (String.length (String "/" rest1))) rest1
                ["/"%char] 1) as [out Hout]; [simpl; lia|].
    rewrite Hout. cbn [bind].
    assert (dot_free rest1) as Hdf1 by exact Hdf.
    assert (true = true -> last ["/"%char] = Some "/"%char) as Hr0 by reflexivity.
    pose proof (clean_loop_segments true _ _ _ _ _ Hdf1 Hr0 Hout) as Hseg.
    assert (buf_ok true ["/"%char] 1) as Hok0.
    { split; [split; [reflexivity|split; [simpl; lia|split]]|]; auto. }
    destruct (clean_loop_ok true _ _ _ _ _ Hok0 Hout) as (dd & (_ & _ & _ & Hr) & _).
    destruct (Hr eq_refl) as [_ Hlast].
    destruct out as [|a out]; [discriminate|].
    eexists. split; [reflexivity|]. exact Hseg.
  - destruct (clean_loop_total false (S (String.length (String c rest1)))
                (String c rest1) [] 0) as [out Hout]; [lia|].
    rewrite Hout. cbn [bind].
    assert (false = true -> last (@nil ascii) = Some "/"%char) as Hr0 by discriminate.
    pose proof (clean_loop_segments false _ _ _ _ _ Hdf Hr0 Hout) as Hseg.
    destruct out as [|a out].
    + exfalso. symmetry in Hseg. now apply segments_of_not_nil in Hseg.
    + eexists. split; [reflexivity|]. exact Hseg.
Qed.

Lemma joinPath_cases parent child final :
  child <> "" -> Path.Join [parent; child] = Ok final -> final <> "" ->
  joinPath parent child = Ok final \/ joinPath parent child = Ok (final +:+ "/").
Proof.
  intros Hchild Hjoin Hne. unfold joinPath.
  destruct (decide (child = "")) as [|_]; [contradiction|].
  rewrite Hjoin. cbn [bind].
  destruct (lastChar_total child Hchild) as [a ->]. cbn [bind].
  destruct (Ascii.eqb a "/"); [|now left].
  destruct (lastChar_total final Hne) as [b ->]. cbn [bind].
  destruct (negb (Ascii.eqb b "/")); [now right|now left].
Qed.

Lemma dot_free_app a b : dot_free a -> dot_free b -> dot_free (a +:+ String "/" b).
Proof.
  unfold dot_free. intros Ha Hb.
  change (String "/" b) with (String Strings.slash b).
  rewrite segments_of_app. now apply Forall_app.
Qed.

Lemma Join_pair_segments (parent child : string) :
  child <> "" -> dot_free parent -> dot_free child ->
  exists final, Path.Join [parent; child] = Ok final /\ final <> "" /\
    segments_of final = (segments_of parent ++ segments_of child)%list.
Proof.
  intros Hne Hp Hc. unfold Path.Join.
  destruct (Nat.eqb_spec (list_sum (map String.length [parent; child])) 0)
    as [Hz|_].
  { destruct child; [congruence|]. simpl in Hz. lia. }
  destruct parent as [|a parent].
  - assert (Path.join_buf [""; child] "" = child) as ->.
    { destruct child; [congruence|reflexivity]. }
    destruct (Clean_segments child Hne Hc) as (s & Hs & Hseg).
    destruct (Clean_spec child) as (s' & Hs' & Hne' & _).
    exists s. split; [exact Hs|]. split; [congruence|exact Hseg].
  - assert (Path.join_buf [String a parent; child] ""
            = String a parent +:+ String "/" child) as ->.
    { simpl. destruct child; [congruence|].
      now rewrite append_assoc. }
    destruct (Clean_segments (String a parent +:+ String "/" child))
      as (s & Hs & Hseg); [discriminate|now apply dot_free_app|].
    destruct (Clean_spec (String a parent +:+ String "/" child))
      as (s' & Hs' & Hne' & _).
    exists s. split; [exact Hs|]. split; [congruence|].
    rewrite Hseg. change (String "/" child) with (String Strings.slash child).
    apply segments_of_app.
Qed.

Lemma joinPath_splitClean_inv (parent child s : string) :
  joinPath parent child = Ok s ->
  dot_free parent -> dot_free child ->
  splitClean s = (splitClean parent ++ splitClean child)%list.
Proof.
  intros Hj Hp Hc. rewrite !splitClean_segments.
  destruct (decide (child = "")) as [->|Hne].
  - injection Hj as <-. simpl. now rewrite app_nil_r.
  - destruct (Join_pair_segments parent child Hne Hp Hc) as (final & Hjoin & Hfne & Hseg).
    destruct (joinPath_cases parent child final Hne Hjoin Hfne) as [Hj'|Hj'];
      rewrite Hj' in Hj; injection Hj as <-; [exact Hseg|].
    change (final +:+ "/") with (final +:+ String Strings.slash "").
    rewrite segments_of_app, app_nil_r. exact Hseg.
Qed.

(** X9.  [joinPath] of a parent and a child that have no ["."] and no
    [".."] among their segments returns a path whose segments are those of
    the parent followed by those of the child: a route registered in a
    group is found below the prefix of the group. *)
Theorem joinPath_segments (parent child : string) :
  dot_free parent -> dot_free child ->
  exists s, joinPath parent child = Ok s /\
            splitClean s = (splitClean parent ++ splitClean child)%list.
Proof.
  intros Hp Hc. destruct (decide (child = "")) as [->|Hne].
  - exists parent. split; [reflexivity|].
    change (splitClean "") with (@nil string). now rewrite app_nil_r.
  - destruct (Join_pair_segments parent child Hne Hp Hc) as (final & Hjoin & Hfne & Hseg).
    rewrite !splitClean_segments.
    destruct (joinPath_cases parent child final Hne Hjoin Hfne) as [Hj|Hj].
    + exists final. split; [exact Hj|]. rewrite splitClean_segments. exact Hseg.
    + exists (final +:+ "/"). split; [exact Hj|]. rewrite splitClean_segments.
      change (final +:+ "/") with (final +:+ String Strings.slash "").
      rewrite segments_of_app, app_nil_r. exact Hseg.
Qed.

Lemma joinPath_segments_witness :
  exists s, joinPath "/api/v1/" "//users/:id/" = Ok s /\
            splitClean s = ["api"; "v1"; "users"; ":id"].
Proof.
  destruct (joinPath_segments "/api/v1/" "//users/:id/") as (s & Hs & Hseg).
  - repeat constructor.
  - repeat constructor.
  - exists s. split; [exact Hs|exact Hseg].
Defined.

(** With [".."] in the child the route leaves the prefix of its group. *)
Example joinPath_dotdot : joinPath "/api" "../admin" = Ok "/admin".
Proof. reflexivity. Qed.

(** ** Groups and registration through them *)

Lemma dot_free_splitClean p : dot_free p <-> Forall (fun s => is_dot s = false) (splitClean p).
Proof. unfold dot_free. now rewrite splitClean_segments. Qed.

Lemma Group_inv r path hs g :
  Group r path hs = Ok g ->
  joinPath (routePath r) path = Ok (routePath g) /\
  Handler g = Some (elems (Handler r) ++ elems hs)%list.
Proof.
  unfold Group, jointAbsolutePath.
  destruct (joinPath (routePath r) path) as [p| |]; cbn [bind]; try discriminate.
  intros [= <-]. split; reflexivity.
Qed.

Lemma Group_returns r path hs : exists g, Group r path hs = Ok g.
Proof.
  unfold Group, jointAbsolutePath.
  destruct (joinPath_returns (routePath r) path) as [p ->]. cbn [bind]. eauto.
Qed.

(** X10.  [Group] never panics.  A group made inside a group has the
    middleware of the outer group, then that of the inner one, then its
    own, in this order; and, when no ["."] or [".."] is involved, a prefix
    whose segments are those of the outer prefixes followed by its own. *)
Theorem groups_compose (r : Route) (p1 p2 : string) (h1 h2 : HandlersChain) :
  exists g1 g2,
    Group r p1 h1 = Ok g1 /\ Group g1 p2 h2 = Ok g2 /\
    Handler g2 = Some (elems (Handler r) ++ elems h1 ++ elems h2)%list /\
    (dot_free (routePath r) -> dot_free p1 -> dot_free p2 ->
     splitClean (routePath g2)
     = (splitClean (routePath r) ++ splitClean p1 ++ splitClean p2)%list).
Proof.
  destruct (Group_returns r p1 h1) as [g1 Hg1].
  destruct (Group_returns g1 p2 h2) as [g2 Hg2].
  exists g1, g2. split; [exact Hg1|]. split; [exact Hg2|].
  destruct (Group_inv _ _ _ _ Hg1) as [Hp1 Hh1].
  destruct (Group_inv _ _ _ _ Hg2) as [Hp2 Hh2].
  split.
  - rewrite Hh2, Hh1. simpl. now rewrite <- app_assoc.
  - intros Hdr Hd1 Hd2.
    pose proof (joinPath_splitClean_inv _ _ _ Hp1 Hdr Hd1) as Hseg1.
    assert (dot_free (routePath g1)) as Hdg1.
    { apply dot_free_splitClean. rewrite Hseg1. apply Forall_app.
      split; now apply dot_free_splitClean. }
    pose proof (joinPath_splitClean_inv _ _ _ Hp2 Hdg1 Hd2) as Hseg2.
    rewrite Hseg2, Hseg1. now rewrite <- app_assoc.
Qed.

Lemma groups_compose_witness :
  exists g1 g2,
    Group (Use (engineRoute New) (Some [logger])) "/api/" (Some [auth]) = Ok g1 /\
    Group g1 "v1" None = Ok g2 /\
    Handler g2 = Some [logger; auth] /\
    splitClean (routePath g2) = ["api"; "v1"].
Proof.
  destruct (groups_compose (Use (engineRoute New) (Some [logger])) "/api/" "v1"
              (Some [auth]) None) as (g1 & g2 & H1 & H2 & Hh & Hp).
  exists g1, g2. split; [exact H1|]. split; [exact H2|]. split; [exact Hh|].
  apply Hp; repeat constructor.
Defined.

Lemma handle_inv r e method path hs e' :
  handle r e method path hs = Ok e' ->
  regEnLetter method = true /\
  exists absolutePath,
    joinPath (routePath r) path = Ok absolutePath /\
    addRoute e method absolutePath (joinHandler r hs) = Ok e'.
Proof.
  unfold handle, jointAbsolutePath.
  destruct (regEnLetter method); [|discriminate]. simpl negb. cbn iota.
  destruct (joinPath (routePath r) path) as [p| |]; cbn [bind]; try discriminate.
  intros H. split; [reflexivity|]. eauto.
Qed.

(** X11.  A route registered through [handle] in an engine built by
    registrations is listed under the joined path, and a request for that
    path, or any path of the same segments, is dispatched to the
    middleware of the group followed by the handlers of the route: it is
    never answered with not-found, even when the chain is empty. *)
Theorem route_of_group_is_served (rs : list registration) (e e' : Engine)
    (g : Route) (method path request : string) (hs : HandlersChain) :
  register_all New rs = Ok e ->
  handle g e method path hs = Ok e' ->
  exists absolutePath,
    joinPath (routePath g) path = Ok absolutePath /\
    routeList e' = (routeList e ++ [mkRouteInfo method absolutePath])%list /\
    (splitClean request = splitClean absolutePath ->
     ServeHTTP e' method request
     = Dispatched (dispatch (Some (elems (Handler g) ++ elems hs)%list)
                            (snd (findRoute e' method request)))).
Proof.
  intros Hreg Hh.
  apply handle_inv in Hh as (_ & p & Hp & Hadd).
  exists p. split; [exact Hp|].
  pose proof (register_all_engine_ok _ _ _ engine_ok_New Hreg) as Hok.
  pose proof (addRoute_engine_ok _ _ _ _ _ Hok Hadd) as Hok'.
  destruct (addRoute_node_at_new _ _ _ _ _ Hadd) as (x & Hx & Hxh).
  split; [now apply addRoute_inv in Hadd as (_ & _ & _ & ->)|].
  intros Hsame.
  assert (findRoute e' method request = findRoute e' method p) as Hfind
    by (unfold findRoute; now rewrite Hsame).
  destruct (findRoute_at _ _ _ _ Hok' Hx) as [Hfst _].
  unfold ServeHTTP. rewrite Hfind.
  destruct (findRoute e' method p) as [chain params]. simpl in *.
  rewrite Hfst, Hxh. reflexivity.
Qed.

Lemma route_of_group_is_served_witness :
  exists c,
    ServeHTTP (engine_with "/empty/" []) "GET" "empty" = Dispatched (Ok c) /\
    Writer c = [].
Proof.
  assert (handle (engineRoute New) New "GET" "/empty/" (Some [])
          = Ok (engine_with "/empty/" [])) as Hh by (vm_compute; reflexivity).
  destruct (route_of_group_is_served [] New _ _ "GET" "/empty/" "empty" (Some [])
              eq_refl Hh) as (p & Hp & _ & Hserve).
  assert (p = "/empty/") as -> by (vm_compute in Hp; congruence).
  rewrite (Hserve eq_refl).
  eexists. split; [vm_compute; reflexivity|reflexivity].
Defined.



(** ** The listing of the routes *)

Lemma ltb_false_leb s1 s2 : String.ltb s2 s1 = false <-> String.leb s1 s2 = true.
Proof.
  unfold String.ltb, String.leb. rewrite (String.compare_antisym s2 s1).
  destruct (String.compare s1 s2); simpl; split; congruence.
Qed.

Lemma not_after_path_le a b : not_after a b <-> path_le (Path a) (Path b).
Proof.
  unfold not_after, less, path_le.
  destruct (Nat.eqb_spec (String.length (Path b)) (String.length (Path a))) as [He|Hne].
  - rewrite ltb_false_leb. split; [intros H; right; auto|].
    intros [Hlt|[_ H]]; [lia|exact H].
  - rewrite Nat.ltb_ge. split; [intros H; left; lia|].
    intros [Hlt|[He _]]; [lia|congruence].
Qed.

Lemma leb_trans s1 s2 s3 :
  String.leb s1 s2 = true -> String.leb s2 s3 = true -> String.leb s1 s3 = true.
Proof.
  intros H1 H2. apply Is_true_true.
  apply Is_true_true in H1, H2.
  change (String.le s1 s3). transitivity s2; assumption.
Qed.

Lemma path_le_trans p q r : path_le p q -> path_le q r -> path_le p r.
Proof.
  unfold path_le. intros [H1|[H1 L1]] [H2|[H2 L2]].
  - left. lia.
  - left. lia.
  - left. lia.
  - right. split; [congruence|]. eapply leb_trans; eauto.
Qed.

Lemma path_le_total p q : path_le p q \/ path_le q p.
Proof.
  unfold path_le.
  destruct (Nat.lt_trichotomy (String.length p) (String.length q)) as [H|[H|H]].
  - right. left. exact H.
  - destruct (String.leb_total p q) as [L|L]; [left|right]; right; auto.
  - left. left. exact H.
Qed.

Lemma path_le_antisym p q : path_le p q -> path_le q p -> p = q.
Proof.
  unfold path_le. intros [H1|[H1 L1]] [H2|[H2 L2]]; try lia.
  now apply String.leb_antisym.
Qed.

Lemma insert_by_less_perm x l : Permutation (insert_by_less x l) (x :: l).
Proof.
  induction l as [|y l IH]; simpl; [reflexivity|].
  destruct (less y x); [|reflexivity].
  rewrite IH. apply perm_swap.
Qed.

Lemma insert_by_less_sorted x l :
  StronglySorted not_after l -> StronglySorted not_after (insert_by_less x l).
Proof.
  induction 1 as [|y l Hs IH Hall]; simpl.
  - constructor; constructor.
  - destruct (less y x) eqn:Hyx.
    + constructor; [exact IH|].
      rewrite (insert_by_less_perm x l). constructor; [|exact Hall].
      apply not_after_path_le.
      destruct (path_le_total (Path y) (Path x)) as [H|H]; [exact H|].
      apply not_after_path_le in H. unfold not_after in H. congruence.
    + constructor; [constructor; assumption|].
      constructor; [exact Hyx|].
      eapply Forall_impl; [exact Hall|].
      intros z Hz. apply not_after_path_le. apply not_after_path_le in Hz.
      eapply path_le_trans; [|exact Hz]. now apply not_after_path_le.
Qed.

Lemma sort_Slice_outcome l : sorted_outcome (sort_Slice l) l.
Proof.
  induction l as [|x l [Hp Hs]]; simpl.
  - split; [reflexivity|constructor].
  - split.
    + rewrite insert_by_less_perm. now constructor.
    + now apply insert_by_less_sorted.
Qed.

Lemma sorted_paths_unique (l1 l2 : list string) :
  StronglySorted path_le l1 -> StronglySorted path_le l2 ->
  Permutation l1 l2 -> l1 = l2.
Proof.
  intros H1. revert l2. induction H1 as [|a l1 Hs1 IH Ha]; intros l2 H2 Hp.
  - apply Permutation_nil in Hp. now subst.
  - destruct H2 as [|b l2 Hs2 Hb].
    + symmetry in Hp. apply Permutation_nil in Hp. discriminate.
    + assert (a = b) as ->.
      { assert (In b (a :: l1)) as Hinb
          by (eapply Permutation_in; [symmetry; exact Hp|now left]).
        assert (In a (b :: l2)) as Hina
          by (eapply Permutation_in; [exact Hp|now left]).
        rewrite List.Forall_forall in Ha, Hb.
        destruct Hinb as [->|Hinb]; [reflexivity|].
        destruct Hina as [->|Hina]; [reflexivity|].
        apply path_le_antisym; [now apply Ha|now apply Hb]. }
      f_equal. apply IH; [exact Hs2|]. eapply Permutation_cons_inv; eauto.
Qed.

Lemma sorted_map_Path l :
  StronglySorted not_after l -> StronglySorted path_le (map Path l).
Proof.
  induction 1 as [|a l Hs IH Ha]; simpl; constructor; [exact IH|].
  apply List.Forall_map. eapply Forall_impl; [exact Ha|].
  intros b Hb. now apply not_after_path_le.
Qed.

Lemma sorted_lookup (l : list RouteInfo) i j a b :
  StronglySorted not_after l -> (i < j)%nat ->
  l !! i = Some a -> l !! j = Some b -> path_le (Path a) (Path b).
Proof.
  intros Hs. revert i j. induction Hs as [|x l Hs IH Hall]; intros i j Hij Hi Hj.
  - destruct i; discriminate.
  - destruct j as [|j]; [lia|]. simpl in Hj. destruct i as [|i]; simpl in Hi.
    + injection Hi as ->. apply not_after_path_le.
      rewrite List.Forall_forall in Hall. apply Hall.
      apply list_elem_of_In. eapply list_elem_of_lookup_2; eauto.
    + eapply IH; [|exact Hi|exact Hj]. lia.
Qed.

(** X13.  [RoutesInfo] lists every entry of the registry once; a route
    comes before every route with a shorter path, and before every route
    with a path of the same length that is greater in the order of the
    bytes.  The comparison leaves only the order of the routes of one path
    open: whatever outcome [sort.Slice] gives, the paths come in the same
    sequence. *)
Theorem RoutesInfo_longest_first (e : Engine) :
  Permutation (RoutesInfo e) (routeList e) /\
  (forall i j a b,
      (i < j)%nat -> RoutesInfo e !! i = Some a -> RoutesInfo e !! j = Some b ->
      (String.length (Path b) <= String.length (Path a))%nat /\
      (String.length (Path a) = String.length (Path b) ->
       String.leb (Path a) (Path b) = true)) /\
  (forall result,
      sorted_outcome result (routeList e) ->
      map Path result = map Path (RoutesInfo e)).
Proof.
  destruct (sort_Slice_outcome (routeList e)) as [Hp Hs].
  split; [exact Hp|]. split.
  - intros i j a b Hij Hi Hj.
    destruct (sorted_lookup _ _ _ _ _ Hs Hij Hi Hj) as [Hlt|[He Hle]].
    + split; [lia|]. intros Heq. lia.
    + split; [lia|]. intros _. exact Hle.
  - intros result [Hp' Hs'].
    apply sorted_paths_unique; try now apply sorted_map_Path.
    apply Permutation_map. rewrite Hp'. symmetry. exact Hp.
Qed.

Lemma RoutesInfo_longest_first_witness :
  map Path (RoutesInfo demo_engine)
  = ["/message/:param/:param2"; "/message/:param"; "/api/query"; "/ping"] /\
  map Path [mkRouteInfo "GET" "/message/:param/:param2";
            mkRouteInfo "GET" "/message/:param";
            mkRouteInfo "POST" "/api/query"; mkRouteInfo "GET" "/ping"]
  = map Path (RoutesInfo demo_engine).
Proof.
  split; [vm_compute; reflexivity|].
  destruct (RoutesInfo_longest_first demo_engine) as (Hp & _ & Huniq).
  apply Huniq. split.
  - assert (RoutesInfo demo_engine
            = [mkRouteInfo "GET" "/message/:param/:param2";
               mkRouteInfo "GET" "/message/:param";
               mkRouteInfo "POST" "/api/query"; mkRouteInfo "GET" "/ping"]) as Heq
      by (vm_compute; reflexivity).
    rewrite <- Heq. exact Hp.
  - repeat (constructor; [|repeat constructor; reflexivity]). constructor.
Defined.

(** ** Requests that are served stay served *)

Lemma findParts_stable method path parts hs n n' request params x params' :
  addParts method path parts hs n = Ok n' ->
  findParts request n params = Some (x, params') ->
  exists x', findParts request n' params = Some (x', params') /\
             (node_handlers x <> None -> node_handlers x' = node_handlers x).
Proof.
  revert n n' request params.
  induction parts as [|part parts IH]; intros n n' request params H Hf.
  - apply addParts_nil_inv in H as [Hnone ->].
    destruct request as [|seg request].
    + injection Hf as <- <-. eexists. split; [reflexivity|]. intros Hne. contradiction.
    + exists x. split; [exact Hf|reflexivity].
  - apply addParts_cons_inv in H
      as [(Hp & Hc & next & next' & Hnext & Hrec & ->)
         |(Hp & Hpn & next & next' & Hnext & Hrec & ->)].
    + destruct request as [|seg request].
      * injection Hf as <- <-. eexists. split; [reflexivity|]. reflexivity.
      * cbn [findParts children paramNode set_paramNode] in *.
        destruct (children n !! seg) as [c|]; [exists x; auto|].
        destruct (paramNode n) as [pn|] eqn:Hpn; [|discriminate].
        destruct Hnext as [[= ->]|[[=] _]].
        rewrite (addParts_segment _ _ _ _ _ _ Hrec).
        eapply IH; eauto.
    + destruct request as [|seg request].
      * injection Hf as <- <-. eexists. split; [reflexivity|]. reflexivity.
      * cbn [findParts children paramNode set_child] in *.
        destruct (decide (part = seg)) as [->|Hne].
        -- rewrite lookup_insert_eq.
           destruct Hnext as [Hc|(Hc & _)]; rewrite Hc in Hf.
           ++ eapply IH; eauto.
           ++ rewrite Hpn in Hf. discriminate.
        -- rewrite lookup_insert_ne by assumption. exists x. auto.
Qed.

(** X14.  A registration that goes through does not change how a request
    that was served is resolved: the request keeps its handlers and its
    parameter bindings.  (A static child cannot be put where the walk of
    the request took the parameter child: that registration is refused.) *)
Theorem served_request_is_stable (e e' : Engine) (rs : list registration)
    (method request : string) :
  register_all e rs = Ok e' ->
  fst (findRoute e method request) <> None ->
  findRoute e' method request = findRoute e method request.
Proof.
  revert e. induction rs as [|r rs IH]; intros e H Hserved.
  - now injection H as <-.
  - apply register_all_cons_inv in H as (e1 & H1 & H2).
    assert (findRoute e1 method request = findRoute e method request) as Hstep.
    { apply addRoute_inv in H1 as (c & Hc & Ht & _).
      unfold findRoute in *. rewrite Ht.
      destruct (decide (reg_method r = method)) as [Hm|Hm].
      - rewrite Hm in *. rewrite lookup_insert_eq.
        destruct (trees e !! method) as [root|]; [|now contradiction Hserved].
        simpl in Hc.
        destruct (findParts (splitClean request) root None) as [[x params]|] eqn:Hf;
          [|now contradiction Hserved].
        destruct (findParts_stable _ _ _ _ _ _ _ _ _ _ Hc Hf) as (x' & -> & Hkeep).
        simpl in Hserved. now rewrite (Hkeep Hserved).
      - now rewrite lookup_insert_ne. }
    rewrite <- Hstep. apply IH; [exact H2|]. now rewrite Hstep.
Qed.

Lemma served_request_is_stable_witness :
  findRoute (engine_of (register_all demo_engine
                          [mkRegistration "GET" "/message/:x/:y/more" (Some [pong]);
                           mkRegistration "GET" "/ping/pong" (Some [echo])]))
            "GET" "/message/a/b"
  = (Some [echo; pong], Some (<["param2" := "b"]> {["param" := "a"]})).
Proof.
  rewrite (served_request_is_stable demo_engine _
             [mkRegistration "GET" "/message/:x/:y/more" (Some [pong]);
              mkRegistration "GET" "/ping/pong" (Some [echo])] "GET" "/message/a/b").
  - vm_compute. reflexivity.
  - vm_compute. reflexivity.
  - vm_compute. discriminate.
Defined.
